(** * Sidechain objects: wire format, commitment scripts and selection

    A shallow embedding of [src/sidechain.cpp]: the identity hash
    ([SidechainObj::GetHash]), the tag-dispatched decoder
    ([ParseSidechainObj]), the commitment script ([SidechainObj::GetScript])
    and the three selection helpers ([SortWTByFee], [SortWTPrimeByHeight],
    [SelectUnspentWT]).

    The translation unit includes [sidechain.h], [streams.h], [hash.h] and
    the serialization framework of the surrounding node; none of them is
    part of the sources at hand.  What the functions of [sidechain.cpp] need
    from them is either taken as a parameter (constants, the transaction
    codec, the hash primitive) or modelled from the specification (the data
    stream and the field layout of the three records). *)

From Stdlib Require Import String ZArith List Lia Bool Permutation Sorted.
From coqutil Require Import Byte Word.LittleEndianList.
Import ListNotations.

Local Open Scope Z_scope.
Local Open Scope list_scope.

(* ================================================================= *)
(** ** The data stream *)

(** Outcome of code that may throw [std::ios_base::failure]. *)
Inductive result (A : Type) : Type :=
| Ok (a : A)
| Failure.

Arguments Ok {A} a.
Arguments Failure {A}.

(** Modelled from the spec: [CDataStream] (streams.h) is missing.  A stream
    is the sequence of bytes not yet consumed; writing appends, reading
    consumes from the front.  The spec (4.2) asks that no field decoder
    reads past the supplied buffer: a read of more bytes than remain is the
    hard failure. *)
Definition CDataStream := list byte.

Definition reader (A : Type) : Type := CDataStream -> result (A * CDataStream).

Definition ret {A} (a : A) : reader A := fun s => Ok (a, s).

Definition bind {A B} (m : reader A) (k : A -> reader B) : reader B :=
  fun s => match m s with
           | Ok (a, s') => k a s'
           | Failure => Failure
           end.

Definition throw {A} : reader A := fun _ => Failure.

Notation "x <- m ;; k" := (bind m (fun x => k))
  (at level 61, m at next level, right associativity).

Definition read (n : nat) : reader (list byte) :=
  fun s => if (length s <? n)%nat then Failure
           else Ok (firstn n s, skipn n s).

(* ================================================================= *)
(** ** Scalars of the consensus serialization format *)

(** Modelled from the spec: serialize.h is missing.  The spec (6) fixes
    fixed-width little-endian integers "as the surrounding consensus
    serialization format"; the helpers below follow that format: 1, 2, 4 and
    8 byte little-endian scalars, signed values in two's complement, and the
    length prefix of variable-length data (compact size, canonical form
    enforced on read, lengths capped at [MAX_SIZE]). *)
Definition ser_writedata (nbytes : nat) (z : Z) : list byte := le_split nbytes z.

Definition ser_readdata (nbytes : nat) : reader Z :=
  bs <- read nbytes ;; ret (le_combine bs).

Definition to_signed (nbytes : nat) (u : Z) : Z :=
  if u <? 2 ^ (Z.of_nat nbytes * 8 - 1) then u else u - 2 ^ (Z.of_nat nbytes * 8).

Definition ser_readsigned (nbytes : nat) : reader Z :=
  u <- ser_readdata nbytes ;; ret (to_signed nbytes u).

Definition ser_writechar (c : byte) : list byte := [c].

Definition ser_readchar : reader byte :=
  fun s => match s with
           | [] => Failure
           | c :: s' => Ok (c, s')
           end.

Definition MAX_SIZE : Z := 0x02000000.

Definition WriteCompactSize (nSize : Z) : list byte :=
  if nSize <? 253 then ser_writedata 1 nSize
  else if nSize <=? 0xFFFF then ser_writedata 1 253 ++ ser_writedata 2 nSize
  else if nSize <=? 0xFFFFFFFF then ser_writedata 1 254 ++ ser_writedata 4 nSize
  else ser_writedata 1 255 ++ ser_writedata 8 nSize.

Definition ReadCompactSize : reader Z :=
  chSize <- ser_readdata 1 ;;
  nSizeRet <-
    (if chSize <? 253 then ret chSize
     else if chSize =? 253 then
       n <- ser_readdata 2 ;; if n <? 253 then throw else ret n
     else if chSize =? 254 then
       n <- ser_readdata 4 ;; if n <? 0x10000 then throw else ret n
     else
       n <- ser_readdata 8 ;; if n <? 0x100000000 then throw else ret n) ;;
  if MAX_SIZE <? nSizeRet then throw else ret nSizeRet.

(** [std::string]: compact size of the length, then the characters. *)
Definition SerializeString (str : String.string) : list byte :=
  let bs := String.list_byte_of_string str in
  WriteCompactSize (Z.of_nat (length bs)) ++ bs.

Definition UnserializeString : reader String.string :=
  nSize <- ReadCompactSize ;;
  bs <- read (Z.to_nat nSize) ;;
  ret (String.string_of_list_byte bs).

(** [uint256] and [CKeyID] (a [uint160]) are opaque blobs of 32 and 20
    bytes, written as they are; the model reads a blob as the little-endian
    number of its bytes, so the default-constructed (all zero) blob is 0. *)
Definition uint256 := Z.
Definition uint256_default : uint256 := 0.

Definition in_range (lo hi z : Z) : Prop := lo <= z < hi.
Definition is_int64 (z : Z) : Prop := in_range (- 2 ^ 63) (2 ^ 63) z.
Definition is_int32 (z : Z) : Prop := in_range (- 2 ^ 31) (2 ^ 31) z.
Definition is_uint32 (z : Z) : Prop := in_range 0 (2 ^ 32) z.
Definition is_uint160 (z : Z) : Prop := in_range 0 (2 ^ 160) z.
Definition is_uint256 (z : Z) : Prop := in_range 0 (2 ^ 256) z.
Definition is_string (str : String.string) : Prop :=
  Z.of_nat (length (String.list_byte_of_string str)) <= MAX_SIZE.

(* ================================================================= *)
(** ** A codec and its two laws *)

(** [w] writes, [r] reads: what is written from a value in [dom] is read
    back with the rest of the stream untouched, and whatever is read was
    written from a value in [dom]. *)
Definition reads_back {A} (dom : A -> Prop) (w : A -> list byte) (r : reader A) : Prop :=
  forall a rest, dom a -> r (w a ++ rest) = Ok (a, rest).

Definition reads_only {A} (dom : A -> Prop) (w : A -> list byte) (r : reader A) : Prop :=
  forall s a rest, r s = Ok (a, rest) -> dom a /\ s = w a ++ rest.

Definition unsigned_dom (nbytes : nat) (z : Z) : Prop :=
  in_range 0 (2 ^ (Z.of_nat nbytes * 8)) z.

Definition signed_dom (nbytes : nat) (z : Z) : Prop :=
  in_range (- 2 ^ (Z.of_nat nbytes * 8 - 1)) (2 ^ (Z.of_nat nbytes * 8 - 1)) z.

Definition size_dom (z : Z) : Prop := in_range 0 (MAX_SIZE + 1) z.

Definition any {A} (a : A) : Prop := True.

(* ================================================================= *)
(** ** What sidechain.cpp takes from its headers *)

(** Constants of sidechain.h and script.h that [sidechain.cpp] names, and
    the height [new SidechainWTPrime] leaves in the object it creates (the
    default constructor is in sidechain.h). Their values are not in the
    sources at hand; they are parameters. *)
Class Constants : Type := {
  OP_RETURN : byte;
  DB_SIDECHAIN_WT_OP : byte;
  DB_SIDECHAIN_WTPRIME_OP : byte;
  DB_SIDECHAIN_DEPOSIT_OP : byte;
  WT_UNSPENT : byte;
  nHeight_new : Z
}.

(** The three tags tell the kinds apart. *)
Definition ops_distinct `{Constants} : Prop :=
  DB_SIDECHAIN_WT_OP <> DB_SIDECHAIN_WTPRIME_OP /\
  DB_SIDECHAIN_WT_OP <> DB_SIDECHAIN_DEPOSIT_OP /\
  DB_SIDECHAIN_WTPRIME_OP <> DB_SIDECHAIN_DEPOSIT_OP.

(** Collaborators of the node: the mainchain transaction type with its own
    serialization, and the hash of a serialization ([SerializeHash]). *)
Class Node : Type := {
  CMutableTransaction : Type;
  SerializeTx : CMutableTransaction -> list byte;
  UnserializeTx : reader CMutableTransaction;
  Hash : list byte -> uint256
}.

(** What the transaction codec owes its callers.  It reads back what it
    wrote and leaves the rest of the stream. *)
Definition tx_codec_reads_back `{Node} : Prop :=
  forall tx rest, UnserializeTx (SerializeTx tx ++ rest) = Ok (tx, rest).

(** It accepts nothing but what it writes. *)
Definition tx_codec_canonical `{Node} : Prop :=
  forall s tx rest, UnserializeTx s = Ok (tx, rest) -> s = SerializeTx tx ++ rest.

Section Model.
Context {consts : Constants} {node : Node}.

(* ================================================================= *)
(** ** Object model *)

(** [struct SidechainWT : SidechainObj] with the fields [sidechain.cpp]
    uses.  The three records share the names [sidechainop] (inherited from
    the base), [nSidechain] and [status]; the projections carry the record
    as a prefix to keep them apart. *)
Record SidechainWT : Type := mkSidechainWT {
  wt_sidechainop : byte;
  wt_nSidechain : byte;
  strDestination : String.string;
  amount : Z;
  mainchainFee : Z;
  wt_status : byte;
  hashBlindWTX : uint256
}.

Record SidechainWTPrime : Type := mkSidechainWTPrime {
  wtprime_sidechainop : byte;
  wtprime_nSidechain : byte;
  wtPrime : CMutableTransaction;
  wtprime_status : byte;
  nHeight : Z
}.

Record SidechainDeposit : Type := mkSidechainDeposit {
  deposit_sidechainop : byte;
  deposit_nSidechain : byte;
  keyID : Z;
  amtUserPayout : Z;
  dtx : CMutableTransaction;
  n : Z
}.

(** An object seen through [SidechainObj*]: the base record alone, or one of
    the three records that derive from it. *)
Inductive SidechainObj : Type :=
| ObjBase (op : byte)
| ObjWT (wt : SidechainWT)
| ObjWTPrime (wtprime : SidechainWTPrime)
| ObjDeposit (deposit : SidechainDeposit).

Definition sidechainop (this : SidechainObj) : byte :=
  match this with
  | ObjBase op => op
  | ObjWT wt => wt_sidechainop wt
  | ObjWTPrime wtprime => wtprime_sidechainop wtprime
  | ObjDeposit deposit => deposit_sidechainop deposit
  end.

(** The casts [(SidechainWT * ) this] and the like: defined when the object
    is of the target type, undefined behaviour ([None]) otherwise. *)
Definition as_WT (this : SidechainObj) : option SidechainWT :=
  match this with ObjWT wt => Some wt | _ => None end.

Definition as_WTPrime (this : SidechainObj) : option SidechainWTPrime :=
  match this with ObjWTPrime wtprime => Some wtprime | _ => None end.

Definition as_Deposit (this : SidechainObj) : option SidechainDeposit :=
  match this with ObjDeposit deposit => Some deposit | _ => None end.

(* ================================================================= *)
(** ** Field layout of the three records *)

(** Modelled from the spec: the [Serialize]/[Unserialize] methods of the
    three records are declared in sidechain.h, which is missing.  The layout
    is the one of the spec (6): the tag byte first, then the fields in the
    listed order, every field mandatory.  The sidechain index is one byte,
    amounts are 64-bit signed, the status is one byte, the blinded hash 32
    bytes, the key identifier 20 bytes, the output index 32-bit unsigned. *)
Definition Serialize_WT (wt : SidechainWT) : list byte :=
  ser_writechar (wt_sidechainop wt) ++
  ser_writechar (wt_nSidechain wt) ++
  SerializeString (strDestination wt) ++
  ser_writedata 8 (amount wt) ++
  ser_writedata 8 (mainchainFee wt) ++
  ser_writechar (wt_status wt) ++
  ser_writedata 32 (hashBlindWTX wt).

Definition Unserialize_WT : reader SidechainWT :=
  op <- ser_readchar ;;
  nSidechain <- ser_readchar ;;
  str <- UnserializeString ;;
  amt <- ser_readsigned 8 ;;
  fee <- ser_readsigned 8 ;;
  status <- ser_readchar ;;
  hash <- ser_readdata 32 ;;
  ret (mkSidechainWT op nSidechain str amt fee status hash).

(** Modelled from the spec: as above.  The spec (6) lists index, transaction
    and status as the fields of a bundle on the wire; the height is kept
    beside the object and is not written.  [ParseSidechainObj] unserializes
    into the object [new SidechainWTPrime] created, so the height of the
    decoded bundle is the one of that fresh object. *)
Definition Serialize_WTPrime (wtprime : SidechainWTPrime) : list byte :=
  ser_writechar (wtprime_sidechainop wtprime) ++
  ser_writechar (wtprime_nSidechain wtprime) ++
  SerializeTx (wtPrime wtprime) ++
  ser_writechar (wtprime_status wtprime).

Definition Unserialize_WTPrime : reader SidechainWTPrime :=
  op <- ser_readchar ;;
  nSidechain <- ser_readchar ;;
  tx <- UnserializeTx ;;
  status <- ser_readchar ;;
  ret (mkSidechainWTPrime op nSidechain tx status nHeight_new).

(** Modelled from the spec: as above, for the deposit record. *)
Definition Serialize_Deposit (deposit : SidechainDeposit) : list byte :=
  ser_writechar (deposit_sidechainop deposit) ++
  ser_writechar (deposit_nSidechain deposit) ++
  ser_writedata 20 (keyID deposit) ++
  ser_writedata 8 (amtUserPayout deposit) ++
  SerializeTx (dtx deposit) ++
  ser_writedata 4 (n deposit).

Definition Unserialize_Deposit : reader SidechainDeposit :=
  op <- ser_readchar ;;
  nSidechain <- ser_readchar ;;
  key <- ser_readdata 20 ;;
  payout <- ser_readsigned 8 ;;
  tx <- UnserializeTx ;;
  idx <- ser_readdata 4 ;;
  ret (mkSidechainDeposit op nSidechain key payout tx idx).

(** The serialization of an object of known kind. *)
Definition Serialize (this : SidechainObj) : list byte :=
  match this with
  | ObjBase _ => []
  | ObjWT wt => Serialize_WT wt
  | ObjWTPrime wtprime => Serialize_WTPrime wtprime
  | ObjDeposit deposit => Serialize_Deposit deposit
  end.

(** [SerializeHash]: the hash of the serialization. *)
Definition SerializeHash (vch : list byte) : uint256 := Hash vch.

(* ================================================================= *)
(** ** sidechain.cpp *)

Definition GetHash (this : SidechainObj) : option uint256 :=
  let ret := uint256_default in
  if Byte.eqb (sidechainop this) DB_SIDECHAIN_WT_OP then
    option_map (fun wt => SerializeHash (Serialize_WT wt)) (as_WT this)
  else if Byte.eqb (sidechainop this) DB_SIDECHAIN_WTPRIME_OP then
    option_map (fun wtprime => SerializeHash (Serialize_WTPrime wtprime)) (as_WTPrime this)
  else if Byte.eqb (sidechainop this) DB_SIDECHAIN_DEPOSIT_OP then
    option_map (fun deposit => SerializeHash (Serialize_Deposit deposit)) (as_Deposit this)
  else Some ret.

(** [NULL] is [Ok None]; an exception of [Unserialize] leaves the function,
    which has no handler: [Failure]. *)
Definition ParseSidechainObj (vch : list byte) : result (option SidechainObj) :=
  match vch with
  | [] => Ok None
  | vch0 :: _ =>
    let ds : CDataStream := vch in
    if Byte.eqb vch0 DB_SIDECHAIN_WT_OP then
      match Unserialize_WT ds with
      | Ok (obj, _) => Ok (Some (ObjWT obj))
      | Failure => Failure
      end
    else if Byte.eqb vch0 DB_SIDECHAIN_WTPRIME_OP then
      match Unserialize_WTPrime ds with
      | Ok (obj, _) => Ok (Some (ObjWTPrime obj))
      | Failure => Failure
      end
    else if Byte.eqb vch0 DB_SIDECHAIN_DEPOSIT_OP then
      match Unserialize_Deposit ds with
      | Ok (obj, _) => Ok (Some (ObjDeposit obj))
      | Failure => Failure
      end
    else Ok None
  end.

Definition CompareWTMainchainFee (a b : SidechainWT) : bool :=
  mainchainFee a >? mainchainFee b.

Definition CompareWTPrimeHeight (a b : SidechainWTPrime) : bool :=
  nHeight a >? nHeight b.

(** [std::sort] is the standard library's: it leaves a permutation of the
    range ordered by [comp] and promises nothing about elements [comp] does
    not tell apart.  The model is insertion sort, which the library's sort
    runs on short ranges. *)
Fixpoint linear_insert {A} (comp : A -> A -> bool) (val : A) (l : list A) : list A :=
  match l with
  | [] => [val]
  | x :: l' => if comp val x then val :: x :: l' else x :: linear_insert comp val l'
  end.

Definition std_sort {A} (comp : A -> A -> bool) (l : list A) : list A :=
  fold_left (fun sorted val => linear_insert comp val sorted) l [].

Definition SortWTByFee (vWT : list SidechainWT) : list SidechainWT :=
  std_sort CompareWTMainchainFee vWT.

Definition SortWTPrimeByHeight (vWTPrime : list SidechainWTPrime) : list SidechainWTPrime :=
  std_sort CompareWTPrimeHeight vWTPrime.

(** [v.erase(std::remove_if(v.begin(), v.end(), pred), v.end())]: the
    elements that do not satisfy [pred] are moved to the front one after the
    other, and the tail behind them is erased. *)
Fixpoint erase_remove_if {A} (pred : A -> bool) (v : list A) : list A :=
  match v with
  | [] => []
  | x :: v' => if pred x then erase_remove_if pred v' else x :: erase_remove_if pred v'
  end.

Definition SelectUnspentWT (vWT : list SidechainWT) : list SidechainWT :=
  erase_remove_if (fun wt => negb (Byte.eqb (wt_status wt) WT_UNSPENT)) vWT.

Definition script_header : list byte := [OP_RETURN; Byte.xac; Byte.xdc; Byte.xf6; Byte.x6f].

Definition GetScript (this : SidechainObj) : option (list byte) :=
  let ds : option CDataStream :=
    if Byte.eqb (sidechainop this) DB_SIDECHAIN_WT_OP then
      option_map Serialize_WT (as_WT this)
    else if Byte.eqb (sidechainop this) DB_SIDECHAIN_WTPRIME_OP then
      option_map Serialize_WTPrime (as_WTPrime this)
    else if Byte.eqb (sidechainop this) DB_SIDECHAIN_DEPOSIT_OP then
      option_map Serialize_Deposit (as_Deposit this)
    else Some [] in
  option_map (fun vch => script_header ++ vch) ds.

(* ================================================================= *)
(** ** Valid objects *)

(** The fields of a record lie within the range of their C++ types. *)
Definition fields_WT (wt : SidechainWT) : Prop :=
  is_string (strDestination wt) /\
  is_int64 (amount wt) /\
  is_int64 (mainchainFee wt) /\
  is_uint256 (hashBlindWTX wt).

Definition fields_WTPrime (wtprime : SidechainWTPrime) : Prop :=
  is_int32 (nHeight wtprime).

Definition fields_Deposit (deposit : SidechainDeposit) : Prop :=
  is_uint160 (keyID deposit) /\
  is_int64 (amtUserPayout deposit) /\
  is_uint32 (n deposit).

(** A valid value of a kind carries the tag of its kind and fields within
    range. *)
Definition valid_WT (wt : SidechainWT) : Prop :=
  wt_sidechainop wt = DB_SIDECHAIN_WT_OP /\ fields_WT wt.

Definition valid_WTPrime (wtprime : SidechainWTPrime) : Prop :=
  wtprime_sidechainop wtprime = DB_SIDECHAIN_WTPRIME_OP /\ fields_WTPrime wtprime.

Definition valid_Deposit (deposit : SidechainDeposit) : Prop :=
  deposit_sidechainop deposit = DB_SIDECHAIN_DEPOSIT_OP /\ fields_Deposit deposit.

Definition valid (this : SidechainObj) : Prop :=
  match this with
  | ObjBase _ => False
  | ObjWT wt => valid_WT wt
  | ObjWTPrime wtprime => valid_WTPrime wtprime
  | ObjDeposit deposit => valid_Deposit deposit
  end.

(** The tag is one of the three known kinds. *)
Definition known_op (op : byte) : Prop :=
  op = DB_SIDECHAIN_WT_OP \/ op = DB_SIDECHAIN_WTPRIME_OP \/ op = DB_SIDECHAIN_DEPOSIT_OP.

(** [ParseCommitment] on the output of [GetScript]: the caller strips the
    five bytes of the header and decodes the rest. *)
Definition strip_header (script : list byte) : list byte := skipn 5 script.

End Model.

(* ================================================================= *)
(** ** Vocabulary of the statements *)

(** [l'] keeps some elements of [l], in the order they have in [l]. *)
Inductive subsequence {A} : list A -> list A -> Prop :=
| subsequence_nil : subsequence [] []
| subsequence_keep x l' l : subsequence l' l -> subsequence (x :: l') (x :: l)
| subsequence_drop x l' l : subsequence l' l -> subsequence l' (x :: l).

Fixpoint count {A} (p : A -> bool) (l : list A) : nat :=
  match l with
  | [] => 0
  | x :: l' => (if p x then 1 else 0) + count p l'
  end.

(** What the decoder makes of an object: a bundle comes back with the
    height of a fresh object, the other kinds as they are. *)
Definition SidechainWTPrime_received `{Constants} `{Node}
    (wtprime : SidechainWTPrime) : SidechainWTPrime :=
  mkSidechainWTPrime (wtprime_sidechainop wtprime) (wtprime_nSidechain wtprime)
    (wtPrime wtprime) (wtprime_status wtprime) nHeight_new.

Definition received `{Constants} `{Node} (this : SidechainObj) : SidechainObj :=
  match this with
  | ObjWTPrime wtprime => ObjWTPrime (SidechainWTPrime_received wtprime)
  | _ => this
  end.

(** Bundles and deposits embed a mainchain transaction. *)
Definition carries_transaction `{Node} (this : SidechainObj) : Prop :=
  match this with
  | ObjWTPrime _ | ObjDeposit _ => True
  | _ => False
  end.

(** The tag of the kind and the fields that are written within range. *)
Definition wire_valid `{Constants} `{Node} (this : SidechainObj) : Prop :=
  match this with
  | ObjBase _ => False
  | ObjWT wt => valid_WT wt
  | ObjWTPrime wtprime => wtprime_sidechainop wtprime = DB_SIDECHAIN_WTPRIME_OP
  | ObjDeposit deposit => valid_Deposit deposit
  end.

(** Greater key first. *)
Definition descending {A} (key : A -> Z) (a b : A) : Prop := key a >= key b.

(** The buffer begins with one of the three known tags. *)
Definition first_byte_known `{Constants} (vch : list byte) : Prop :=
  match vch with
  | [] => False
  | vch0 :: _ => known_op vch0
  end.

(** A buffer is malformed when it is not the serialization of a valid
    object followed by anything: no choice of field values fits the bytes. *)
Definition malformed `{Constants} `{Node} (vch : list byte) : Prop :=
  forall x trailing, valid x -> vch <> Serialize x ++ trailing.

(** The reading the amended claim replaces: the codec's payload is without
    tag and [GetScript] frames it with header and tag. *)
Definition tag_added_by_GetScript `{Constants} `{Node} (x : SidechainObj) : Prop :=
  GetScript x = Some (script_header ++ sidechainop x :: Serialize x).

(* ================================================================= *)
(** ** A sample instance *)

(** Concrete constants, a one-byte stand-in for the transaction codec and a
    stand-in hash, to run the definitions on. *)
Definition sample_constants : Constants := {|
  OP_RETURN := Byte.x6a;
  DB_SIDECHAIN_WT_OP := Byte.x57;
  DB_SIDECHAIN_WTPRIME_OP := Byte.x50;
  DB_SIDECHAIN_DEPOSIT_OP := Byte.x44;
  WT_UNSPENT := Byte.x55;
  nHeight_new := 0
|}.

Definition sample_node : Node := {|
  CMutableTransaction := byte;
  SerializeTx := ser_writechar;
  UnserializeTx := ser_readchar;
  Hash := fun vch => Z.of_nat (length vch) + 1
|}.

Definition sample_destination : String.string := "mSomeAddr"%string.

Definition sample_wt (fee : Z) : SidechainWT :=
  mkSidechainWT Byte.x57 Byte.x00 sample_destination 100000000 fee Byte.x55 0.

Definition sample_wtprime (height : Z) : @SidechainWTPrime sample_node :=
  @mkSidechainWTPrime sample_node Byte.x50 Byte.x00 Byte.x2a Byte.x63 height.

Definition sample_deposit : @SidechainDeposit sample_node :=
  @mkSidechainDeposit sample_node Byte.x44 Byte.x00 7 5000 Byte.x2a 1.

(* ================================================================= *)
(** ** Status rendering *)

(** The remaining status constants of sidechain.h that [sidechain.cpp]
    names; like the tags, their values are parameters. *)
Class StatusConstants : Type := {
  WT_IN_WTPRIME : byte;
  WT_SPENT : byte;
  WTPRIME_CREATED : byte;
  WTPRIME_FAILED : byte;
  WTPRIME_SPENT : byte
}.

(** [SidechainWT::GetStatusStr]. *)
Definition SidechainWT_GetStatusStr `{Constants} `{StatusConstants}
    (this : SidechainWT) : String.string :=
  if Byte.eqb (wt_status this) WT_UNSPENT then "Unspent"%string
  else if Byte.eqb (wt_status this) WT_IN_WTPRIME then "Pending - in WT^"%string
  else if Byte.eqb (wt_status this) WT_SPENT then "Spent"%string
  else "Unknown"%string.

(** [SidechainWTPrime::GetStatusStr]. *)
Definition SidechainWTPrime_GetStatusStr `{Node} `{StatusConstants}
    (this : SidechainWTPrime) : String.string :=
  if Byte.eqb (wtprime_status this) WTPRIME_CREATED then "Created"%string
  else if Byte.eqb (wtprime_status this) WTPRIME_FAILED then "Failed"%string
  else if Byte.eqb (wtprime_status this) WTPRIME_SPENT then "Spent"%string
  else "Unknown"%string.

(** The kind the first byte of a buffer selects in [ParseSidechainObj]: the
    tests run in the order withdrawal, bundle, deposit. *)
Definition kind_selected_by `{Constants} `{Node} (vch0 : byte) (obj : SidechainObj) : Prop :=
  match obj with
  | ObjBase _ => False
  | ObjWT _ => vch0 = DB_SIDECHAIN_WT_OP
  | ObjWTPrime _ => vch0 <> DB_SIDECHAIN_WT_OP /\ vch0 = DB_SIDECHAIN_WTPRIME_OP
  | ObjDeposit _ =>
    vch0 <> DB_SIDECHAIN_WT_OP /\ vch0 <> DB_SIDECHAIN_WTPRIME_OP /\
    vch0 = DB_SIDECHAIN_DEPOSIT_OP
  end.

Definition sample_status_constants : StatusConstants := {|
  WT_IN_WTPRIME := Byte.x50;
  WT_SPENT := Byte.x53;
  WTPRIME_CREATED := Byte.x63;
  WTPRIME_FAILED := Byte.x66;
  WTPRIME_SPENT := Byte.x6f
|}.

(** A request like [sample_wt] with the status of one's choice. *)
Definition sample_wt_status (status : byte) (fee : Z) : SidechainWT :=
  mkSidechainWT Byte.x57 Byte.x00 sample_destination 100000000 fee status 0.

(* ================================================================= *)
(** ** The stream monad *)

Lemma bind_Ok {A B} (m : reader A) (k : A -> reader B) s a s' :
  m s = Ok (a, s') -> bind m k s = k a s'.
Proof. unfold bind. intros ->. reflexivity. Qed.

Lemma bind_inv {A B} (m : reader A) (k : A -> reader B) s b s'' :
  bind m k s = Ok (b, s'') ->
  exists a s', m s = Ok (a, s') /\ k a s' = Ok (b, s'').
Proof.
  unfold bind. destruct (m s) as [[a s']|]; [|discriminate].
  intros Hk. exists a, s'. split; [reflexivity|exact Hk].
Qed.

Lemma ret_inv {A} (a b : A) s s' : ret a s = Ok (b, s') -> a = b /\ s = s'.
Proof. unfold ret. intros H. inversion H. split; reflexivity. Qed.

Lemma read_app bs rest : read (length bs) (bs ++ rest) = Ok (bs, rest).
Proof.
  unfold read. rewrite length_app.
  destruct (Nat.ltb_spec (length bs + length rest) (length bs)) as [Hlt|_]; [lia|].
  rewrite firstn_app, Nat.sub_diag, firstn_all, firstn_O, app_nil_r.
  rewrite skipn_app, Nat.sub_diag, skipn_all, skipn_O. reflexivity.
Qed.

Lemma read_inv nbytes s bs rest :
  read nbytes s = Ok (bs, rest) -> s = bs ++ rest /\ length bs = nbytes.
Proof.
  unfold read. destruct (Nat.ltb_spec (length s) nbytes) as [|Hle]; [discriminate|].
  intros H. inversion H; subst. split.
  - symmetry. apply firstn_skipn.
  - apply firstn_length_le. exact Hle.
Qed.

(** A truncated stream fails. *)
Lemma read_short nbytes s : (length s < nbytes)%nat -> read nbytes s = Failure.
Proof.
  unfold read. intros H. destruct (Nat.ltb_spec (length s) nbytes); [reflexivity|lia].
Qed.

(* ================================================================= *)
(** ** Scalars *)

Lemma ser_data_reads_back nbytes : reads_back (unsigned_dom nbytes) (ser_writedata nbytes) (ser_readdata nbytes).
Proof.
  intros z rest Hz. unfold ser_readdata, ser_writedata.
  rewrite (bind_Ok _ _ _ (le_split nbytes z) rest).
  - unfold ret. rewrite le_combine_split, Z.mod_small; [reflexivity|exact Hz].
  - rewrite <- (length_le_split nbytes z) at 1. apply read_app.
Qed.

Lemma ser_data_reads_only nbytes : reads_only (unsigned_dom nbytes) (ser_writedata nbytes) (ser_readdata nbytes).
Proof.
  intros s z rest H. unfold ser_readdata in H.
  apply bind_inv in H as (bs & s' & Hread & Hret).
  apply ret_inv in Hret as [<- <-]. apply read_inv in Hread as [-> Hlen].
  split.
  - unfold unsigned_dom, in_range. pose proof (le_combine_bound bs) as Hb.
    rewrite Hlen in Hb. replace (Z.of_nat nbytes * 8) with (8 * Z.of_nat nbytes) by lia. exact Hb.
  - unfold ser_writedata. rewrite (split_le_combine' bs nbytes Hlen). reflexivity.
Qed.

Lemma to_signed_wrap nbytes z :
  (0 < nbytes)%nat -> signed_dom nbytes z ->
  to_signed nbytes (z mod 2 ^ (Z.of_nat nbytes * 8)) = z.
Proof.
  intros Hn [Hlo Hhi]. unfold to_signed.
  set (w := Z.of_nat nbytes * 8) in *.
  assert (Hw : 0 < w) by (unfold w; lia).
  assert (Hpow : 2 ^ w = 2 * 2 ^ (w - 1)).
  { replace w with (Z.succ (w - 1)) at 1 by lia. apply Z.pow_succ_r. lia. }
  assert (Hpos : 0 < 2 ^ (w - 1)) by (apply Z.pow_pos_nonneg; lia).
  destruct (Z_lt_le_dec z 0) as [Hneg|Hnn].
  - replace (z mod 2 ^ w) with (z + 2 ^ w).
    + destruct (Z.ltb_spec (z + 2 ^ w) (2 ^ (w - 1))); lia.
    + rewrite <- (Z.mod_small (z + 2 ^ w) (2 ^ w)) at 1 by lia.
      replace (z + 2 ^ w) with (z + 1 * 2 ^ w) by lia. apply Z.mod_add. lia.
  - rewrite Z.mod_small by lia.
    destruct (Z.ltb_spec z (2 ^ (w - 1))); lia.
Qed.

Lemma to_signed_dom nbytes u :
  (0 < nbytes)%nat -> unsigned_dom nbytes u ->
  signed_dom nbytes (to_signed nbytes u) /\
  to_signed nbytes u mod 2 ^ (Z.of_nat nbytes * 8) = u.
Proof.
  intros Hn [Hlo Hhi]. unfold to_signed, signed_dom, in_range.
  set (w := Z.of_nat nbytes * 8) in *.
  assert (Hw : 0 < w) by (unfold w; lia).
  assert (Hpow : 2 ^ w = 2 * 2 ^ (w - 1)).
  { replace w with (Z.succ (w - 1)) at 1 by lia. apply Z.pow_succ_r. lia. }
  assert (Hpos : 0 < 2 ^ (w - 1)) by (apply Z.pow_pos_nonneg; lia).
  destruct (Z.ltb_spec u (2 ^ (w - 1))).
  - split; [lia|]. apply Z.mod_small. lia.
  - split; [lia|].
    replace (u - 2 ^ w) with (u + (-1) * 2 ^ w) by lia.
    rewrite Z.mod_add by lia. apply Z.mod_small. lia.
Qed.

Lemma ser_signed_reads_back nbytes :
  (0 < nbytes)%nat ->
  reads_back (signed_dom nbytes) (ser_writedata nbytes) (ser_readsigned nbytes).
Proof.
  intros Hn z rest Hz. unfold ser_readsigned, ser_writedata.
  rewrite le_split_mod.
  rewrite (bind_Ok _ _ _ (z mod 2 ^ (Z.of_nat nbytes * 8)) rest).
  - unfold ret. rewrite to_signed_wrap by assumption. reflexivity.
  - apply ser_data_reads_back. unfold unsigned_dom, in_range.
    apply Z.mod_pos_bound. apply Z.pow_pos_nonneg; lia.
Qed.

Lemma ser_signed_reads_only nbytes :
  (0 < nbytes)%nat ->
  reads_only (signed_dom nbytes) (ser_writedata nbytes) (ser_readsigned nbytes).
Proof.
  intros Hn s z rest H. unfold ser_readsigned in H.
  apply bind_inv in H as (u & s' & Hread & Hret).
  apply ret_inv in Hret as [<- <-].
  apply ser_data_reads_only in Hread as [Hu ->].
  destruct (to_signed_dom nbytes u Hn Hu) as [Hdom Hmod].
  split; [exact Hdom|].
  unfold ser_writedata. rewrite (le_split_mod (to_signed nbytes u)), Hmod. reflexivity.
Qed.

Lemma ser_char_reads_back : reads_back any ser_writechar ser_readchar.
Proof. intros c rest _. reflexivity. Qed.

Lemma ser_char_reads_only : reads_only any ser_writechar ser_readchar.
Proof.
  intros s c rest H. destruct s as [|c' s']; [discriminate|].
  inversion H; subst. split; [exact I|reflexivity].
Qed.

(* ================================================================= *)
(** ** Compact sizes and strings *)

Lemma unsigned_dom_bound nbytes z lim :
  0 <= z -> z < lim -> lim <= 2 ^ (Z.of_nat nbytes * 8) -> unsigned_dom nbytes z.
Proof. unfold unsigned_dom, in_range. lia. Qed.

Lemma CompactSize_reads_back : reads_back size_dom WriteCompactSize ReadCompactSize.
Proof.
  intros nSize rest [Hlo Hhi]. unfold MAX_SIZE in Hhi.
  unfold WriteCompactSize, ReadCompactSize.
  destruct (Z.ltb_spec nSize 253) as [H1|H1].
  - rewrite (bind_Ok _ _ _ nSize rest).
    2:{ apply ser_data_reads_back. apply (unsigned_dom_bound 1 nSize 253); [lia|lia|cbv; discriminate]. }
    destruct (Z.ltb_spec nSize 253) as [_|]; [|lia].
    unfold bind, ret, MAX_SIZE.
    destruct (Z.ltb_spec 33554432 nSize); [lia|reflexivity].
  - destruct (Z.leb_spec nSize 65535) as [H2|H2].
    + rewrite <- app_assoc.
      rewrite (bind_Ok _ _ _ 253 (ser_writedata 2 nSize ++ rest)).
      2:{ apply ser_data_reads_back. apply (unsigned_dom_bound 1 253 256); [lia|lia|cbv; discriminate]. }
      change (253 <? 253) with false. change (253 =? 253) with true. cbv iota.
      rewrite (bind_Ok _ _ _ nSize rest).
      * unfold MAX_SIZE, ret. destruct (Z.ltb_spec 33554432 nSize); [lia|reflexivity].
      * rewrite (bind_Ok _ _ _ nSize rest).
        -- destruct (Z.ltb_spec nSize 253); [lia|reflexivity].
        -- apply ser_data_reads_back.
           apply (unsigned_dom_bound 2 nSize 65536); [lia|lia|cbv; discriminate].
    + destruct (Z.leb_spec nSize 4294967295) as [H3|H3]; [|lia].
      rewrite <- app_assoc.
      rewrite (bind_Ok _ _ _ 254 (ser_writedata 4 nSize ++ rest)).
      2:{ apply ser_data_reads_back. apply (unsigned_dom_bound 1 254 256); [lia|lia|cbv; discriminate]. }
      change (254 <? 253) with false. change (254 =? 253) with false.
      change (254 =? 254) with true. cbv iota.
      rewrite (bind_Ok _ _ _ nSize rest).
      * unfold MAX_SIZE, ret. destruct (Z.ltb_spec 33554432 nSize); [lia|reflexivity].
      * rewrite (bind_Ok _ _ _ nSize rest).
        -- destruct (Z.ltb_spec nSize 65536); [lia|reflexivity].
        -- apply ser_data_reads_back.
           apply (unsigned_dom_bound 4 nSize 33554433); [lia|lia|].
           change (2 ^ (Z.of_nat 4 * 8)) with 4294967296. lia.
Qed.

Lemma guarded_inv (lim nSize : Z) s v rest :
  (if nSize <? lim then throw else ret nSize) s = Ok (v, rest) ->
  lim <= nSize /\ v = nSize /\ rest = s.
Proof.
  destruct (Z.ltb_spec nSize lim); [discriminate|].
  intros H'. apply ret_inv in H' as [-> ->]. auto.
Qed.

Lemma CompactSize_reads_only : reads_only size_dom WriteCompactSize ReadCompactSize.
Proof.
  intros s nSize rest H. unfold ReadCompactSize in H.
  apply bind_inv in H as (chSize & s1 & Hch & H).
  apply ser_data_reads_only in Hch as [[Hc0 Hc1] ->].
  change (2 ^ (Z.of_nat 1 * 8)) with 256 in Hc1.
  apply bind_inv in H as (nSizeRet & s2 & Hsz & H).
  assert (Hmax : nSizeRet <= MAX_SIZE /\ nSizeRet = nSize /\ s2 = rest).
  { destruct (Z.ltb_spec MAX_SIZE nSizeRet); [discriminate|].
    apply ret_inv in H as [-> ->]. auto. }
  destruct Hmax as (Hmax & -> & ->). clear H. unfold MAX_SIZE in Hmax.
  unfold size_dom, in_range, WriteCompactSize, MAX_SIZE.
  destruct (Z.ltb_spec chSize 253) as [H1|H1].
  - apply ret_inv in Hsz as [-> ->].
    destruct (Z.ltb_spec nSize 253); [|lia]. split; [lia|reflexivity].
  - destruct (Z.eqb_spec chSize 253) as [->|H2].
    + apply bind_inv in Hsz as (v & s3 & Hrd & Hg).
      apply ser_data_reads_only in Hrd as [[Hv0 Hv1] ->].
      change (2 ^ (Z.of_nat 2 * 8)) with 65536 in Hv1.
      apply guarded_inv in Hg as (Hge & -> & ->).
      destruct (Z.ltb_spec v 253); [lia|].
      destruct (Z.leb_spec v 65535); [|lia].
      split; [lia|]. rewrite <- app_assoc. reflexivity.
    + destruct (Z.eqb_spec chSize 254) as [->|H3].
      * apply bind_inv in Hsz as (v & s3 & Hrd & Hg).
        apply ser_data_reads_only in Hrd as [[Hv0 Hv1] ->].
        change (2 ^ (Z.of_nat 4 * 8)) with 4294967296 in Hv1.
        apply guarded_inv in Hg as (Hge & -> & ->).
        destruct (Z.ltb_spec v 253); [lia|].
        destruct (Z.leb_spec v 65535); [lia|].
        destruct (Z.leb_spec v 4294967295); [|lia].
        split; [lia|]. rewrite <- app_assoc. reflexivity.
      * apply bind_inv in Hsz as (v & s3 & Hrd & Hg).
        apply guarded_inv in Hg as (Hge & -> & ->). lia.
Qed.

Lemma String_reads_back : reads_back is_string SerializeString UnserializeString.
Proof.
  intros str rest Hstr. unfold SerializeString, UnserializeString. cbv zeta.
  rewrite <- app_assoc.
  rewrite (bind_Ok _ _ _ (Z.of_nat (length (String.list_byte_of_string str)))
             (String.list_byte_of_string str ++ rest)).
  2:{ apply CompactSize_reads_back. unfold is_string in Hstr.
      unfold size_dom, in_range. lia. }
  rewrite Nat2Z.id.
  rewrite (bind_Ok _ _ _ (String.list_byte_of_string str) rest) by apply read_app.
  unfold ret. rewrite String.string_of_list_byte_of_string. reflexivity.
Qed.

Lemma String_reads_only : reads_only is_string SerializeString UnserializeString.
Proof.
  intros s str rest H. unfold UnserializeString in H.
  apply bind_inv in H as (nSize & s1 & Hsz & H).
  apply CompactSize_reads_only in Hsz as [[Hn0 Hn1] ->].
  apply bind_inv in H as (bs & s2 & Hrd & H).
  apply read_inv in Hrd as [-> Hlen].
  apply ret_inv in H as [<- <-].
  unfold is_string, SerializeString. cbv zeta.
  rewrite String.list_byte_of_string_of_list_byte, Hlen, Z2Nat.id by lia.
  split; [lia|]. rewrite <- app_assoc. reflexivity.
Qed.

(* ================================================================= *)
(** ** The three records *)

Section Records.
Context {consts : Constants} {node : Node}.
Hypothesis tx_back : tx_codec_reads_back.
Hypothesis tx_canonical : tx_codec_canonical.

Lemma Tx_reads_back : reads_back any SerializeTx UnserializeTx.
Proof. intros tx rest _. apply tx_back. Qed.

Lemma Tx_reads_only : reads_only any SerializeTx UnserializeTx.
Proof. intros s tx rest H. split; [exact I|]. apply tx_canonical. exact H. Qed.

Ltac read_field lem :=
  erewrite bind_Ok; [| apply lem; solve [assumption | exact I | lia]].

Ltac field_inv H lem :=
  let v := fresh "v" in let s := fresh "s" in
  let Hv := fresh "Hv" in let Hr := fresh "Hr" in
  apply bind_inv in H as (v & s & Hr & H);
  apply lem in Hr as [Hv ->].

Lemma WT_reads_back : reads_back fields_WT Serialize_WT Unserialize_WT.
Proof.
  intros [op ns str amt fee st hash] rest (Hstr & Hamt & Hfee & Hhash).
  cbn [strDestination amount mainchainFee hashBlindWTX] in *.
  unfold Serialize_WT, Unserialize_WT.
  cbn [wt_sidechainop wt_nSidechain strDestination amount mainchainFee wt_status hashBlindWTX].
  rewrite <- !app_assoc.
  read_field ser_char_reads_back.
  read_field ser_char_reads_back.
  read_field String_reads_back.
  read_field (ser_signed_reads_back 8).
  read_field (ser_signed_reads_back 8).
  read_field ser_char_reads_back.
  read_field (ser_data_reads_back 32).
  reflexivity.
Qed.

Lemma WT_reads_only : reads_only fields_WT Serialize_WT Unserialize_WT.
Proof.
  intros s wt rest H. unfold Unserialize_WT in H.
  field_inv H ser_char_reads_only.
  field_inv H ser_char_reads_only.
  field_inv H String_reads_only.
  field_inv H (ser_signed_reads_only 8 ltac:(lia)).
  field_inv H (ser_signed_reads_only 8 ltac:(lia)).
  field_inv H ser_char_reads_only.
  field_inv H ser_data_reads_only.
  apply ret_inv in H as [<- <-].
  split.
  - split; [assumption|]. split; [assumption|]. split; assumption.
  - unfold Serialize_WT. cbn. rewrite <- !app_assoc. reflexivity.
Qed.

Lemma WTPrime_reads_back wtprime rest :
  Unserialize_WTPrime (Serialize_WTPrime wtprime ++ rest) =
  Ok (SidechainWTPrime_received wtprime, rest).
Proof.
  destruct wtprime as [op ns tx st height].
  unfold Serialize_WTPrime, Unserialize_WTPrime, SidechainWTPrime_received.
  cbn [wtprime_sidechainop wtprime_nSidechain wtPrime wtprime_status nHeight].
  rewrite <- !app_assoc.
  read_field ser_char_reads_back.
  read_field ser_char_reads_back.
  read_field Tx_reads_back.
  read_field ser_char_reads_back.
  reflexivity.
Qed.

Lemma WTPrime_reads_only :
  reads_only (fun wtprime => nHeight wtprime = nHeight_new)
    Serialize_WTPrime Unserialize_WTPrime.
Proof.
  intros s wtprime rest H. unfold Unserialize_WTPrime in H.
  field_inv H ser_char_reads_only.
  field_inv H ser_char_reads_only.
  field_inv H Tx_reads_only.
  field_inv H ser_char_reads_only.
  apply ret_inv in H as [<- <-].
  split.
  - reflexivity.
  - unfold Serialize_WTPrime. cbn. rewrite <- !app_assoc. reflexivity.
Qed.

Lemma Deposit_reads_back : reads_back fields_Deposit Serialize_Deposit Unserialize_Deposit.
Proof.
  intros [op ns key payout tx idx] rest (Hkey & Hpay & Hidx).
  cbn [keyID amtUserPayout n] in *.
  unfold Serialize_Deposit, Unserialize_Deposit.
  cbn [deposit_sidechainop deposit_nSidechain keyID amtUserPayout dtx n].
  rewrite <- !app_assoc.
  read_field ser_char_reads_back.
  read_field ser_char_reads_back.
  read_field (ser_data_reads_back 20).
  read_field (ser_signed_reads_back 8).
  read_field Tx_reads_back.
  read_field (ser_data_reads_back 4).
  reflexivity.
Qed.

Lemma Deposit_reads_only : reads_only fields_Deposit Serialize_Deposit Unserialize_Deposit.
Proof.
  intros s deposit rest H. unfold Unserialize_Deposit in H.
  field_inv H ser_char_reads_only.
  field_inv H ser_char_reads_only.
  field_inv H ser_data_reads_only.
  field_inv H (ser_signed_reads_only 8 ltac:(lia)).
  field_inv H Tx_reads_only.
  field_inv H ser_data_reads_only.
  apply ret_inv in H as [<- <-].
  split.
  - split; [assumption|]. split; assumption.
  - unfold Serialize_Deposit. cbn. rewrite <- !app_assoc. reflexivity.
Qed.

End Records.

(* ================================================================= *)
(** ** Dispatch on the tag *)

Section Dispatch.
Context {consts : Constants} {node : Node}.

Lemma byte_eqb_refl (b : byte) : Byte.eqb b b = true.
Proof. apply Byte.byte_dec_lb. reflexivity. Qed.

Lemma byte_eqb_neq (a b : byte) : a <> b -> Byte.eqb a b = false.
Proof.
  intros Hne. destruct (Byte.eqb a b) eqn:E; [|reflexivity].
  apply Byte.byte_dec_bl in E. contradiction.
Qed.

Lemma byte_eqb_true (a b : byte) : Byte.eqb a b = true -> a = b.
Proof. apply Byte.byte_dec_bl. Qed.

(** Every serialization of one of the three records begins with the tag
    the record carries. *)
Lemma Serialize_WT_tag wt :
  exists fields, Serialize_WT wt = wt_sidechainop wt :: fields.
Proof. unfold Serialize_WT, ser_writechar. cbn [app]. eexists. reflexivity. Qed.

Lemma Serialize_WTPrime_tag wtprime :
  exists fields, Serialize_WTPrime wtprime = wtprime_sidechainop wtprime :: fields.
Proof. unfold Serialize_WTPrime, ser_writechar. cbn [app]. eexists. reflexivity. Qed.

Lemma Serialize_Deposit_tag deposit :
  exists fields, Serialize_Deposit deposit = deposit_sidechainop deposit :: fields.
Proof. unfold Serialize_Deposit, ser_writechar. cbn [app]. eexists. reflexivity. Qed.

Lemma Serialize_tag x :
  valid x -> exists fields, Serialize x = sidechainop x :: fields.
Proof.
  destruct x as [op|wt|wtprime|deposit]; cbn [valid Serialize sidechainop].
  - contradiction.
  - intros _. apply Serialize_WT_tag.
  - intros _. apply Serialize_WTPrime_tag.
  - intros _. apply Serialize_Deposit_tag.
Qed.

Lemma valid_known_op x : valid x -> known_op (sidechainop x).
Proof.
  unfold known_op.
  destruct x as [op|wt|wtprime|deposit]; cbn [valid sidechainop].
  - contradiction.
  - intros [-> _]. auto.
  - intros [-> _]. auto.
  - intros [-> _]. auto.
Qed.

(** On a valid object [GetScript] takes the branch of the object's kind. *)
Lemma GetScript_valid x :
  ops_distinct -> valid x -> GetScript x = Some (script_header ++ Serialize x).
Proof.
  intros (Hwp & Hwd & Hpd).
  destruct x as [op|wt|wtprime|deposit]; cbn [valid]; unfold GetScript;
    cbn [sidechainop as_WT as_WTPrime as_Deposit Serialize].
  - contradiction.
  - intros [-> _]. rewrite byte_eqb_refl. reflexivity.
  - intros [-> _]. rewrite (byte_eqb_neq _ _ (not_eq_sym Hwp)), byte_eqb_refl. reflexivity.
  - intros [-> _].
    rewrite (byte_eqb_neq _ _ (not_eq_sym Hwd)), (byte_eqb_neq _ _ (not_eq_sym Hpd)), byte_eqb_refl.
    reflexivity.
Qed.

Lemma strip_header_script vch : strip_header (script_header ++ vch) = vch.
Proof. reflexivity. Qed.

(** A bundle keeps its serialization when its height changes. *)
Lemma Serialize_received x : Serialize (received x) = Serialize x.
Proof. destruct x as [op|wt|wtprime|deposit]; reflexivity. Qed.

Lemma valid_wire_valid x : valid x -> wire_valid x.
Proof.
  destruct x as [op|wt|wtprime|deposit]; cbn [valid wire_valid]; try tauto.
  intros [Hop _]. exact Hop.
Qed.

(** Every object with the written fields in range has the serialization of
    a valid object. *)
Lemma wire_valid_serialization x :
  wire_valid x -> exists x', valid x' /\ Serialize x' = Serialize x.
Proof.
  destruct x as [op|wt|wtprime|deposit]; cbn [wire_valid].
  - contradiction.
  - intros H. exists (ObjWT wt). split; [exact H|reflexivity].
  - intros H.
    exists (ObjWTPrime (mkSidechainWTPrime (wtprime_sidechainop wtprime)
              (wtprime_nSidechain wtprime) (wtPrime wtprime) (wtprime_status wtprime) 0)).
    split; [|reflexivity]. cbn [valid]. split; [exact H|].
    unfold fields_WTPrime, is_int32, in_range. cbn [nHeight]. lia.
  - intros H. exists (ObjDeposit deposit). split; [exact H|reflexivity].
Qed.


(** The decoder on the serialization of an object, whatever follows: the
    object comes back as [received] describes.  The transaction codec is
    called on for the kinds that embed a transaction only. *)
Lemma ParseSidechainObj_Serialize x trailing :
  ops_distinct -> wire_valid x -> (carries_transaction x -> tx_codec_reads_back) ->
  ParseSidechainObj (Serialize x ++ trailing) = Ok (Some (received x)).
Proof.
  intros (Hwp & Hwd & Hpd).
  destruct x as [op|wt|wtprime|deposit]; cbn [wire_valid Serialize carries_transaction received].
  - contradiction.
  - intros [Hop Hf] _. destruct (Serialize_WT_tag wt) as [fields Hs].
    unfold ParseSidechainObj. rewrite Hs at 1. cbn [app]. cbv zeta.
    rewrite Hop, byte_eqb_refl.
    rewrite (WT_reads_back wt trailing Hf). reflexivity.
  - intros Hop Htx. destruct (Serialize_WTPrime_tag wtprime) as [fields Hs].
    unfold ParseSidechainObj. rewrite Hs at 1. cbn [app]. cbv zeta.
    rewrite Hop, (byte_eqb_neq _ _ (not_eq_sym Hwp)), byte_eqb_refl.
    rewrite (WTPrime_reads_back (Htx I) wtprime trailing). reflexivity.
  - intros [Hop Hf] Htx. destruct (Serialize_Deposit_tag deposit) as [fields Hs].
    unfold ParseSidechainObj. rewrite Hs at 1. cbn [app]. cbv zeta.
    rewrite Hop, (byte_eqb_neq _ _ (not_eq_sym Hwd)), (byte_eqb_neq _ _ (not_eq_sym Hpd)),
      byte_eqb_refl.
    rewrite (Deposit_reads_back (Htx I) deposit trailing Hf). reflexivity.
Qed.

(** Whatever object the decoder returns is complete: the buffer begins with
    the serialization of that object, whose written fields are in range and
    whose height, for a bundle, is the one of a fresh object. *)
Lemma ParseSidechainObj_complete :
  tx_codec_canonical -> forall vch x,
  ParseSidechainObj vch = Ok (Some x) ->
  wire_valid x /\ received x = x /\ exists trailing, vch = Serialize x ++ trailing.
Proof.
  intros tx_canonical vch x.
  unfold ParseSidechainObj. destruct vch as [|vch0 rest]; [discriminate|]. cbv zeta.
  destruct (Byte.eqb vch0 DB_SIDECHAIN_WT_OP) eqn:Ew.
  { apply byte_eqb_true in Ew.
    destruct (Unserialize_WT (vch0 :: rest)) as [[obj rest']|] eqn:Hu; [|discriminate].
    intros H. inversion H; subst x. clear H.
    apply WT_reads_only in Hu as [Hf Hs].
    destruct (Serialize_WT_tag obj) as [fields Ht].
    cbn [wire_valid Serialize received].
    split; [|split; [reflexivity|exists rest'; exact Hs]].
    split; [|exact Hf]. rewrite Ht in Hs. cbn [app] in Hs. inversion Hs. congruence. }
  destruct (Byte.eqb vch0 DB_SIDECHAIN_WTPRIME_OP) eqn:Ep.
  { apply byte_eqb_true in Ep.
    destruct (Unserialize_WTPrime (vch0 :: rest)) as [[obj rest']|] eqn:Hu; [|discriminate].
    intros H. inversion H; subst x. clear H.
    apply (WTPrime_reads_only tx_canonical) in Hu as [Hf Hs].
    destruct (Serialize_WTPrime_tag obj) as [fields Ht].
    cbn [wire_valid Serialize received].
    split; [|split; [|exists rest'; exact Hs]].
    - rewrite Ht in Hs. cbn [app] in Hs. inversion Hs. congruence.
    - destruct obj as [op ns tx st height]. cbn [nHeight] in Hf. subst height.
      reflexivity. }
  destruct (Byte.eqb vch0 DB_SIDECHAIN_DEPOSIT_OP) eqn:Ed.
  { apply byte_eqb_true in Ed.
    destruct (Unserialize_Deposit (vch0 :: rest)) as [[obj rest']|] eqn:Hu; [|discriminate].
    intros H. inversion H; subst x. clear H.
    apply (Deposit_reads_only tx_canonical) in Hu as [Hf Hs].
    destruct (Serialize_Deposit_tag obj) as [fields Ht].
    cbn [wire_valid Serialize received].
    split; [|split; [reflexivity|exists rest'; exact Hs]].
    split; [|exact Hf]. rewrite Ht in Hs. cbn [app] in Hs. inversion Hs. congruence. }
  discriminate.
Qed.

(** With a known tag in front the decoder never answers [NULL]. *)
Lemma ParseSidechainObj_known_op vch0 rest :
  known_op vch0 -> ParseSidechainObj (vch0 :: rest) <> Ok None.
Proof.
  intros Hk. unfold ParseSidechainObj. cbv zeta.
  destruct (Byte.eqb vch0 DB_SIDECHAIN_WT_OP) eqn:Ew.
  { destruct (Unserialize_WT (vch0 :: rest)) as [[obj rest']|]; discriminate. }
  destruct (Byte.eqb vch0 DB_SIDECHAIN_WTPRIME_OP) eqn:Ep.
  { destruct (Unserialize_WTPrime (vch0 :: rest)) as [[obj rest']|]; discriminate. }
  destruct (Byte.eqb vch0 DB_SIDECHAIN_DEPOSIT_OP) eqn:Ed.
  { destruct (Unserialize_Deposit (vch0 :: rest)) as [[obj rest']|]; discriminate. }
  destruct Hk as [Hk | [Hk | Hk]]; subst vch0; rewrite byte_eqb_refl in *; discriminate.
Qed.

(** A buffer with a known tag in front that is malformed makes the decoder
    fail. *)
Lemma ParseSidechainObj_malformed vch0 rest :
  tx_codec_canonical -> known_op vch0 -> malformed (vch0 :: rest) ->
  ParseSidechainObj (vch0 :: rest) = Failure.
Proof.
  intros Htx Hk Hbad.
  destruct (ParseSidechainObj (vch0 :: rest)) as [[x|]|] eqn:E.
  - apply (ParseSidechainObj_complete Htx) in E as (Hx & _ & trailing & Hs).
    destruct (wire_valid_serialization x Hx) as (x' & Hx' & Hs').
    exfalso. apply (Hbad x' trailing Hx'). rewrite Hs'. exact Hs.
  - exfalso. exact (ParseSidechainObj_known_op vch0 rest Hk E).
  - reflexivity.
Qed.

(** A truncated serialization is malformed: cut anywhere before its end, the
    serialization of a valid object is not the serialization of any valid
    object followed by anything. *)
Lemma truncated_is_malformed :
  tx_codec_reads_back -> forall x vch more,
  ops_distinct -> valid x -> Serialize x = vch ++ more -> more <> [] -> malformed vch.
Proof.
  intros tx_back x vch more Hd Hx Hcut Hmore y trailing Hy Hvch.
  pose proof (ParseSidechainObj_Serialize x [] Hd (valid_wire_valid x Hx)
                (fun _ => tx_back)) as Px.
  pose proof (ParseSidechainObj_Serialize y (trailing ++ more) Hd (valid_wire_valid y Hy)
                (fun _ => tx_back)) as Py.
  rewrite app_nil_r, Hcut, Hvch, <- app_assoc in Px.
  rewrite Px in Py. inversion Py as [Heq].
  apply (f_equal Serialize) in Heq. rewrite !Serialize_received in Heq.
  rewrite Heq, Hvch, <- app_assoc in Hcut.
  apply (f_equal (@length byte)) in Hcut. rewrite !length_app in Hcut.
  destruct more as [|b more]; [congruence|]. cbn [length] in Hcut. lia.
Qed.

End Dispatch.

(* ================================================================= *)
(** ** Sorting and filtering *)

Section Selection.
Context {A : Type}.

Lemma linear_insert_perm (comp : A -> A -> bool) val l :
  Permutation (val :: l) (linear_insert comp val l).
Proof.
  induction l as [|x l IH]; cbn [linear_insert].
  - apply Permutation_refl.
  - destruct (comp val x).
    + apply Permutation_refl.
    + eapply perm_trans; [apply perm_swap|]. apply perm_skip. exact IH.
Qed.

Lemma insertion_loop_perm (comp : A -> A -> bool) l : forall sorted,
  Permutation (l ++ sorted)
    (fold_left (fun sorted val => linear_insert comp val sorted) l sorted).
Proof.
  induction l as [|x l IH]; intros sorted; cbn [fold_left app].
  - apply Permutation_refl.
  - eapply perm_trans; [|apply IH].
    eapply perm_trans; [apply Permutation_middle|].
    apply Permutation_app_head. apply linear_insert_perm.
Qed.

Lemma std_sort_perm (comp : A -> A -> bool) l : Permutation l (std_sort comp l).
Proof.
  unfold std_sort. rewrite <- (app_nil_r l) at 1. apply insertion_loop_perm.
Qed.

Lemma linear_insert_Forall (P : A -> Prop) comp val l :
  P val -> Forall P l -> Forall P (linear_insert comp val l).
Proof.
  intros Hval Hl.
  apply (Permutation_Forall (linear_insert_perm comp val l)).
  constructor; assumption.
Qed.

(** A comparator that orders by a numeric key, greater first. *)
Variable key : A -> Z.
Variable greater : A -> A -> bool.
Hypothesis greater_key : forall a b, greater a b = (key a >? key b).

Lemma linear_insert_sorted val l :
  StronglySorted (descending key) l ->
  StronglySorted (descending key) (linear_insert greater val l).
Proof.
  induction l as [|x l IH]; intros Hs; cbn [linear_insert].
  - constructor; [constructor|constructor].
  - inversion Hs as [|? ? Hs' Hx]; subst.
    rewrite greater_key. destruct (Z.gtb_spec (key val) (key x)) as [Hgt|Hle].
    + constructor; [exact Hs|].
      constructor; [unfold descending; lia|].
      eapply Forall_impl; [|exact Hx]. unfold descending. intros y Hy. lia.
    + constructor; [apply IH; exact Hs'|].
      apply linear_insert_Forall; [unfold descending; lia|exact Hx].
Qed.

Lemma insertion_loop_sorted l : forall sorted,
  StronglySorted (descending key) sorted ->
  StronglySorted (descending key)
    (fold_left (fun sorted val => linear_insert greater val sorted) l sorted).
Proof.
  induction l as [|x l IH]; intros sorted Hs; cbn [fold_left].
  - exact Hs.
  - apply IH. apply linear_insert_sorted. exact Hs.
Qed.

Lemma std_sort_descending l : Sorted (descending key) (std_sort greater l).
Proof.
  apply StronglySorted_Sorted. unfold std_sort.
  apply insertion_loop_sorted. constructor.
Qed.

Variable pred : A -> bool.

Lemma erase_remove_if_Forall v :
  Forall (fun x => pred x = false) (erase_remove_if pred v).
Proof.
  induction v as [|x v IH]; cbn [erase_remove_if].
  - constructor.
  - destruct (pred x) eqn:E; [exact IH|]. constructor; assumption.
Qed.

Lemma erase_remove_if_In v x :
  In x v -> pred x = false -> In x (erase_remove_if pred v).
Proof.
  induction v as [|y v IH]; cbn [erase_remove_if In]; [tauto|].
  intros [->|Hin] Hx.
  - rewrite Hx. left. reflexivity.
  - destruct (pred y); [|right]; apply IH; assumption.
Qed.

Lemma erase_remove_if_subsequence v : subsequence (erase_remove_if pred v) v.
Proof.
  induction v as [|x v IH]; cbn [erase_remove_if].
  - constructor.
  - destruct (pred x); constructor; exact IH.
Qed.

Lemma erase_remove_if_length v :
  length (erase_remove_if pred v) = count (fun x => negb (pred x)) v.
Proof.
  induction v as [|x v IH]; cbn [erase_remove_if count]; [reflexivity|].
  destruct (pred x); cbn [negb length]; rewrite IH; reflexivity.
Qed.

End Selection.

(* ================================================================= *)
(** ** The properties of the specification *)

Section Claims.
Context {consts : Constants} {node : Node}.


(** C2 (layout of the commitment). For every valid value [x], the script of
    [GetScript x] is the marker byte [OP_RETURN], the magic bytes AC DC F6
    6F, and from offset 5 on exactly the serialization of [x], which begins
    with the tag of [x], one of the three known tags. *)
Theorem GetScript_layout (x : SidechainObj) :
  ops_distinct -> valid x ->
  exists fields,
    GetScript x =
      Some (OP_RETURN :: Byte.xac :: Byte.xdc :: Byte.xf6 :: Byte.x6f :: Serialize x) /\
    Serialize x = sidechainop x :: fields /\
    known_op (sidechainop x).
Proof.
  intros Hd Hx. destruct (Serialize_tag x Hx) as [fields Hs]. exists fields.
  split; [|split].
  - rewrite (GetScript_valid x Hd Hx). reflexivity.
  - exact Hs.
  - apply valid_known_op. exact Hx.
Qed.

(** C3 (amended: the codec writes the tag). For every valid value [x], the
    serialization of [x] that [GetScript] takes from the codec already
    begins with the tag byte; [GetScript] puts the five bytes of the header
    in front of it and nothing else, so what remains after the header is
    the codec's output, tag included. *)
Theorem tag_written_by_Serialize (x : SidechainObj) :
  ops_distinct -> valid x ->
  exists fields script,
    Serialize x = sidechainop x :: fields /\
    GetScript x = Some script /\
    strip_header script = Serialize x /\
    length script = (5 + length (Serialize x))%nat.
Proof.
  intros Hd Hx. destruct (Serialize_tag x Hx) as [fields Hs].
  exists fields, (script_header ++ Serialize x).
  split; [exact Hs|]. split; [apply GetScript_valid; assumption|].
  split; [apply strip_header_script|].
  rewrite length_app. reflexivity.
Qed.

(** C4 (malformed input). For every buffer whose first byte is one of the
    three known tags and whose bytes do not fit the field layout of any
    valid object, [ParseSidechainObj] ends in the hard failure: it returns
    neither [NULL] nor an object. *)
Theorem malformed_is_hard_failure (vch0 : byte) (rest : list byte) :
  tx_codec_canonical -> known_op vch0 -> malformed (vch0 :: rest) ->
  ParseSidechainObj (vch0 :: rest) = Failure /\
  ParseSidechainObj (vch0 :: rest) <> Ok None /\
  forall x, ParseSidechainObj (vch0 :: rest) <> Ok (Some x).
Proof.
  intros Htx Hk Hbad.
  assert (Hfail : ParseSidechainObj (vch0 :: rest) = Failure).
  { apply ParseSidechainObj_malformed; assumption. }
  rewrite Hfail. split; [reflexivity|]. split; [discriminate|]. intros x; discriminate.
Qed.

(** C5 (absence). For the empty buffer and for every buffer whose first
    byte is none of the three known tags, [ParseSidechainObj] returns
    [NULL], not a failure. *)
Theorem unknown_tag_is_absence (vch : list byte) :
  ~ first_byte_known vch -> ParseSidechainObj vch = Ok None.
Proof.
  destruct vch as [|vch0 rest]; cbn [first_byte_known]; [reflexivity|].
  intros Hn. unfold ParseSidechainObj. cbv zeta.
  destruct (Byte.eqb vch0 DB_SIDECHAIN_WT_OP) eqn:Ew.
  { exfalso. apply Hn. left. apply byte_eqb_true. exact Ew. }
  destruct (Byte.eqb vch0 DB_SIDECHAIN_WTPRIME_OP) eqn:Ep.
  { exfalso. apply Hn. right. left. apply byte_eqb_true. exact Ep. }
  destruct (Byte.eqb vch0 DB_SIDECHAIN_DEPOSIT_OP) eqn:Ed.
  { exfalso. apply Hn. right. right. apply byte_eqb_true. exact Ed. }
  reflexivity.
Qed.

(** C6 (fee ordering). [SortWTByFee] rearranges the requests so that every
    adjacent pair [(a, b)] of the result has [a.mainchainFee >=
    b.mainchainFee]; three requests with fees 500000, 900000, 100000 come
    out with fees 900000, 500000, 100000. *)
Theorem SortWTByFee_descending (vWT : list SidechainWT) :
  Permutation vWT (SortWTByFee vWT) /\
  Sorted (descending mainchainFee) (SortWTByFee vWT) /\
  (map mainchainFee vWT = [500000; 900000; 100000] ->
   map mainchainFee (SortWTByFee vWT) = [900000; 500000; 100000]).
Proof.
  split; [apply std_sort_perm|]. split.
  - apply std_sort_descending. intros a b. reflexivity.
  - destruct vWT as [|a [|b [|c [|d l]]]]; try discriminate.
    cbn [map]. intros H. inversion H as [[Ha Hb Hc]].
    unfold SortWTByFee, std_sort. cbn [fold_left linear_insert].
    unfold CompareWTMainchainFee. rewrite Ha, Hb, Hc.
    change (900000 >? 500000) with true. cbv iota. cbn [linear_insert].
    rewrite Ha, Hb, Hc.
    change (100000 >? 900000) with false. change (100000 >? 500000) with false.
    cbv iota. cbn [map]. rewrite Ha, Hb, Hc. reflexivity.
Qed.

(** C7 (status filter). After [SelectUnspentWT] every retained request is
    Unspent, every Unspent request of the input is retained (as many remain
    as the input has Unspent ones), and the retained requests stand in the
    order they had in the input. *)
Theorem SelectUnspentWT_stable_filter (vWT : list SidechainWT) :
  Forall (fun wt => wt_status wt = WT_UNSPENT) (SelectUnspentWT vWT) /\
  (forall wt, In wt vWT -> wt_status wt = WT_UNSPENT -> In wt (SelectUnspentWT vWT)) /\
  length (SelectUnspentWT vWT) = count (fun wt => Byte.eqb (wt_status wt) WT_UNSPENT) vWT /\
  subsequence (SelectUnspentWT vWT) vWT.
Proof.
  unfold SelectUnspentWT. split; [|split; [|split]].
  - eapply Forall_impl; [|apply erase_remove_if_Forall].
    cbv beta. intros wt H. apply negb_false_iff in H. apply byte_eqb_true. exact H.
  - intros wt Hin Hst. apply erase_remove_if_In; [exact Hin|].
    rewrite Hst, byte_eqb_refl. reflexivity.
  - rewrite erase_remove_if_length. induction vWT as [|wt l IH]; cbn [count]; [reflexivity|].
    rewrite negb_involutive, IH. reflexivity.
  - apply erase_remove_if_subsequence.
Qed.

(** C8 (recency ordering). [SortWTPrimeByHeight] rearranges the bundles so
    that every adjacent pair [(a, b)] of the result has [a.nHeight >=
    b.nHeight]: the most recent first. *)
Theorem SortWTPrimeByHeight_descending (vWTPrime : list SidechainWTPrime) :
  Permutation vWTPrime (SortWTPrimeByHeight vWTPrime) /\
  Sorted (descending nHeight) (SortWTPrimeByHeight vWTPrime).
Proof.
  split; [apply std_sort_perm|].
  apply std_sort_descending. intros a b. reflexivity.
Qed.

(** C9 (hash of an object of unknown kind). For every object whose
    [sidechainop] is none of the three known tags, [GetHash] returns the
    default-constructed hash, all zero. *)
Theorem GetHash_unknown_op (this : SidechainObj) :
  ~ known_op (sidechainop this) -> GetHash this = Some uint256_default.
Proof.
  intros Hn. unfold GetHash. cbv zeta.
  destruct (Byte.eqb (sidechainop this) DB_SIDECHAIN_WT_OP) eqn:Ew.
  { exfalso. apply Hn. left. apply byte_eqb_true. exact Ew. }
  destruct (Byte.eqb (sidechainop this) DB_SIDECHAIN_WTPRIME_OP) eqn:Ep.
  { exfalso. apply Hn. right. left. apply byte_eqb_true. exact Ep. }
  destruct (Byte.eqb (sidechainop this) DB_SIDECHAIN_DEPOSIT_OP) eqn:Ed.
  { exfalso. apply Hn. right. right. apply byte_eqb_true. exact Ed. }
  reflexivity.
Qed.


End Claims.

(* ================================================================= *)
(** ** The sample instance at work *)

Lemma sample_ops_distinct : @ops_distinct sample_constants.
Proof. unfold ops_distinct. cbn. repeat split; discriminate. Qed.

Lemma sample_tx_codec_reads_back : @tx_codec_reads_back sample_node.
Proof. intros tx rest. reflexivity. Qed.

Lemma sample_tx_codec_canonical : @tx_codec_canonical sample_node.
Proof.
  intros s tx rest H. cbn in H. unfold ser_readchar in H.
  destruct s as [|c s']; [discriminate|]. inversion H; subst. reflexivity.
Qed.

Lemma sample_wt_valid fee :
  is_int64 fee -> @valid sample_constants sample_node (ObjWT (sample_wt fee)).
Proof.
  intros Hfee. cbn [valid]. split; [reflexivity|].
  unfold fields_WT, sample_wt. cbn [strDestination amount mainchainFee hashBlindWTX].
  split; [|split; [|split; [exact Hfee|]]].
  - unfold is_string, MAX_SIZE. cbn. lia.
  - unfold is_int64, in_range. lia.
  - unfold is_uint256, in_range. lia.
Qed.

Lemma sample_wtprime_valid height :
  is_int32 height -> @valid sample_constants sample_node (ObjWTPrime (sample_wtprime height)).
Proof. intros Hh. cbn [valid]. split; [reflexivity|exact Hh]. Qed.

Lemma sample_deposit_valid : @valid sample_constants sample_node (ObjDeposit sample_deposit).
Proof.
  cbn [valid]. split; [reflexivity|].
  unfold fields_Deposit, sample_deposit. cbn [keyID amtUserPayout n].
  split; [|split].
  - unfold is_uint160, in_range. lia.
  - unfold is_int64, in_range. lia.
  - unfold is_uint32, in_range. lia.
Qed.

Lemma sample_fee_int64 : is_int64 1000000.
Proof. unfold is_int64, in_range. lia. Qed.

Lemma sample_height_int32 : is_int32 150.
Proof. unfold is_int32, in_range. lia. Qed.

Lemma sample_unknown_op : ~ @known_op sample_constants Byte.x00.
Proof. unfold known_op. cbn. intros [H|[H|H]]; discriminate. Qed.

(** The scenario of the specification: sidechain 0, destination
    "mSomeAddr", amount 100000000, fee 1000000, Unspent, zero hash. *)
Example sample_wt_script :
  @GetScript sample_constants sample_node (ObjWT (sample_wt 1000000)) =
  Some (Byte.x6a :: Byte.xac :: Byte.xdc :: Byte.xf6 :: Byte.x6f ::
        Byte.x57 :: Byte.x00 ::
        Byte.x09 :: String.list_byte_of_string "mSomeAddr" ++
        ser_writedata 8 100000000 ++ ser_writedata 8 1000000 ++
        Byte.x55 :: repeat Byte.x00 32).
Proof. vm_compute. reflexivity. Qed.



Lemma GetScript_layout_witness :
  exists fields,
    @GetScript sample_constants sample_node (ObjWTPrime (sample_wtprime 150)) =
      Some (Byte.x6a :: Byte.xac :: Byte.xdc :: Byte.xf6 :: Byte.x6f ::
            @Serialize sample_node (ObjWTPrime (sample_wtprime 150))) /\
    @Serialize sample_node (ObjWTPrime (sample_wtprime 150)) = Byte.x50 :: fields /\
    @known_op sample_constants Byte.x50.
Proof.
  apply (@GetScript_layout sample_constants sample_node (ObjWTPrime (sample_wtprime 150))).
  - exact sample_ops_distinct.
  - exact (sample_wtprime_valid 150 sample_height_int32).
Defined.

Lemma tag_written_by_Serialize_witness :
  exists fields script,
    @Serialize sample_node (ObjDeposit sample_deposit) = Byte.x44 :: fields /\
    @GetScript sample_constants sample_node (ObjDeposit sample_deposit) = Some script /\
    strip_header script = @Serialize sample_node (ObjDeposit sample_deposit) /\
    length script = (5 + length (@Serialize sample_node (ObjDeposit sample_deposit)))%nat.
Proof.
  apply (@tag_written_by_Serialize sample_constants sample_node (ObjDeposit sample_deposit)).
  - exact sample_ops_distinct.
  - exact sample_deposit_valid.
Defined.

(** C3 as stated fails on the sample request: the codec's output begins
    with the tag, and the script is not header, tag, codec output. *)
Lemma tag_not_added_by_GetScript :
  @valid sample_constants sample_node (ObjWT (sample_wt 1000000)) /\
  hd_error (@Serialize sample_node (ObjWT (sample_wt 1000000))) =
    Some (@sidechainop sample_node (ObjWT (sample_wt 1000000))) /\
  ~ @tag_added_by_GetScript sample_constants sample_node (ObjWT (sample_wt 1000000)).
Proof.
  split; [exact (sample_wt_valid 1000000 sample_fee_int64)|]. split; [reflexivity|].
  unfold tag_added_by_GetScript. intros H.
  apply (f_equal (option_map (@length byte))) in H. vm_compute in H. discriminate.
Qed.

(** The sample request cut after twelve bytes, in the middle of the
    destination string. *)
Lemma sample_truncated_malformed :
  @malformed sample_constants sample_node
    (firstn 12 (@Serialize sample_node (ObjWT (sample_wt 1000000)))).
Proof.
  apply (@truncated_is_malformed sample_constants sample_node sample_tx_codec_reads_back
           (ObjWT (sample_wt 1000000)) _
           (skipn 12 (@Serialize sample_node (ObjWT (sample_wt 1000000))))).
  - exact sample_ops_distinct.
  - exact (sample_wt_valid 1000000 sample_fee_int64).
  - symmetry. apply firstn_skipn.
  - vm_compute. discriminate.
Qed.

Lemma malformed_is_hard_failure_witness :
  @ParseSidechainObj sample_constants sample_node
    (Byte.x57 :: firstn 11 (tl (@Serialize sample_node (ObjWT (sample_wt 1000000))))) = Failure /\
  @ParseSidechainObj sample_constants sample_node
    (Byte.x57 :: firstn 11 (tl (@Serialize sample_node (ObjWT (sample_wt 1000000))))) <> Ok None /\
  forall x, @ParseSidechainObj sample_constants sample_node
    (Byte.x57 :: firstn 11 (tl (@Serialize sample_node (ObjWT (sample_wt 1000000))))) <> Ok (Some x).
Proof.
  apply (@malformed_is_hard_failure sample_constants sample_node).
  - exact sample_tx_codec_canonical.
  - left. reflexivity.
  - exact sample_truncated_malformed.
Defined.

Lemma unknown_tag_is_absence_witness :
  @ParseSidechainObj sample_constants sample_node [] = Ok None /\
  @ParseSidechainObj sample_constants sample_node [Byte.x00; Byte.x57] = Ok None.
Proof.
  split.
  - apply (@unknown_tag_is_absence sample_constants sample_node []).
    intros H. exact H.
  - apply (@unknown_tag_is_absence sample_constants sample_node [Byte.x00; Byte.x57]).
    exact sample_unknown_op.
Defined.

Lemma SortWTByFee_descending_witness :
  map mainchainFee
    (@SortWTByFee [sample_wt 500000; sample_wt 900000; sample_wt 100000]) =
  [900000; 500000; 100000].
Proof.
  apply (proj2 (proj2
    (@SortWTByFee_descending [sample_wt 500000; sample_wt 900000; sample_wt 100000]))).
  reflexivity.
Defined.

Lemma SelectUnspentWT_stable_filter_witness :
  In (sample_wt 900000)
    (@SelectUnspentWT sample_constants
       [mkSidechainWT Byte.x57 Byte.x00 sample_destination 1 2 Byte.x53 0;
        sample_wt 900000]).
Proof.
  apply (proj1 (proj2 (@SelectUnspentWT_stable_filter sample_constants
    [mkSidechainWT Byte.x57 Byte.x00 sample_destination 1 2 Byte.x53 0;
     sample_wt 900000]))).
  - right. left. reflexivity.
  - reflexivity.
Defined.

Lemma GetHash_unknown_op_witness :
  @GetHash sample_constants sample_node
    (ObjWT (mkSidechainWT Byte.x00 Byte.x00 sample_destination 1 2 Byte.x55 0)) =
  Some uint256_default.
Proof.
  apply (@GetHash_unknown_op sample_constants sample_node).
  exact sample_unknown_op.
Defined.



(* ================================================================= *)
(** ** More on ordering: what a sorted range determines *)

Lemma descending_keys_unique (l1 : list Z) : forall l2,
  StronglySorted Z.ge l1 -> StronglySorted Z.ge l2 -> Permutation l1 l2 -> l1 = l2.
Proof.
  induction l1 as [|a l1 IH]; intros l2 H1 H2 Hp.
  - apply Permutation_nil in Hp. subst. reflexivity.
  - destruct l2 as [|b l2].
    { apply Permutation_sym, Permutation_nil in Hp. discriminate. }
    inversion H1 as [|? ? H1' Ha]; subst. inversion H2 as [|? ? H2' Hb]; subst.
    assert (Hab : a = b).
    { assert (Hin_a : In a (b :: l2)) by (eapply Permutation_in; [exact Hp|left; reflexivity]).
      assert (Hin_b : In b (a :: l1))
        by (eapply Permutation_in; [apply Permutation_sym; exact Hp|left; reflexivity]).
      rewrite Forall_forall in Ha, Hb.
      destruct Hin_a as [->|Hin_a]; [reflexivity|].
      destruct Hin_b as [->|Hin_b]; [reflexivity|].
      specialize (Ha b Hin_b). specialize (Hb a Hin_a). lia. }
    subst b. f_equal. apply IH; [assumption|assumption|].
    eapply Permutation_cons_inv. exact Hp.
Qed.

Section Ordering.
Context {A : Type}.
Variable key : A -> Z.
Variable greater : A -> A -> bool.
Hypothesis greater_key : forall a b, greater a b = (key a >? key b).

Lemma std_sort_strongly_sorted l : StronglySorted (descending key) (std_sort greater l).
Proof.
  unfold std_sort. apply (insertion_loop_sorted key greater greater_key). constructor.
Qed.

Lemma keys_strongly_sorted l :
  StronglySorted (descending key) l -> StronglySorted Z.ge (map key l).
Proof.
  induction 1 as [|a l Hs IH Ha]; cbn [map]; constructor.
  - exact IH.
  - rewrite Forall_map. exact Ha.
Qed.

(** Two ordered arrangements of the same elements show the same keys. *)
Lemma ordered_keys_agree l1 l2 :
  StronglySorted (descending key) l1 -> StronglySorted (descending key) l2 ->
  Permutation l1 l2 -> map key l1 = map key l2.
Proof.
  intros H1 H2 Hp. apply descending_keys_unique.
  - apply keys_strongly_sorted. exact H1.
  - apply keys_strongly_sorted. exact H2.
  - apply Permutation_map. exact Hp.
Qed.

Lemma std_sort_keys_invariant l l' :
  Permutation l l' -> map key (std_sort greater l) = map key (std_sort greater l').
Proof.
  intros Hp. apply ordered_keys_agree; try apply std_sort_strongly_sorted.
  eapply perm_trans; [apply Permutation_sym, std_sort_perm|].
  eapply perm_trans; [exact Hp|apply std_sort_perm].
Qed.

Lemma std_sort_head_greatest l top rest x :
  std_sort greater l = top :: rest -> In x l -> key top >= key x.
Proof.
  intros Hs Hin.
  pose proof (std_sort_strongly_sorted l) as Hss. rewrite Hs in Hss.
  assert (Hin' : In x (top :: rest)).
  { rewrite <- Hs. eapply Permutation_in; [apply std_sort_perm|exact Hin]. }
  inversion Hss as [|? ? _ Htop]; subst.
  destruct Hin' as [->|Hin']; [lia|].
  rewrite Forall_forall in Htop. exact (Htop x Hin').
Qed.

Variable pred : A -> bool.

Lemma erase_remove_if_perm l l' :
  Permutation l l' -> Permutation (erase_remove_if pred l) (erase_remove_if pred l').
Proof.
  induction 1 as [|x l l' Hp IH|x y l|l l' l'' Hp1 IH1 Hp2 IH2]; cbn [erase_remove_if].
  - constructor.
  - destruct (pred x); [exact IH|]. constructor. exact IH.
  - destruct (pred x), (pred y); try apply Permutation_refl. apply perm_swap.
  - eapply perm_trans; eassumption.
Qed.

Lemma erase_remove_if_Forall_keep (P : A -> Prop) l :
  Forall P l -> Forall P (erase_remove_if pred l).
Proof.
  induction 1 as [|x l Hx Hl IH]; cbn [erase_remove_if]; [constructor|].
  destruct (pred x); [exact IH|]. constructor; assumption.
Qed.

Lemma erase_remove_if_sorted (R : A -> A -> Prop) l :
  StronglySorted R l -> StronglySorted R (erase_remove_if pred l).
Proof.
  induction 1 as [|x l Hs IH Hx]; cbn [erase_remove_if]; [constructor|].
  destruct (pred x); [exact IH|].
  constructor; [exact IH|]. apply erase_remove_if_Forall_keep. exact Hx.
Qed.

Lemma erase_remove_if_fixpoint l :
  Forall (fun x => pred x = false) l -> erase_remove_if pred l = l.
Proof.
  induction 1 as [|x l Hx Hl IH]; cbn [erase_remove_if]; [reflexivity|].
  rewrite Hx, IH. reflexivity.
Qed.

Lemma erase_remove_if_app l1 l2 :
  erase_remove_if pred (l1 ++ l2) = erase_remove_if pred l1 ++ erase_remove_if pred l2.
Proof.
  induction l1 as [|x l1 IH]; cbn [erase_remove_if app]; [reflexivity|].
  destruct (pred x); rewrite IH; reflexivity.
Qed.

End Ordering.

(* ================================================================= *)
(** ** Further properties of sidechain.cpp *)

Section Scripts.
Context {consts : Constants} {node : Node}.

Lemma GetScript_inv this script :
  GetScript this = Some script -> exists vch, script = script_header ++ vch.
Proof.
  unfold GetScript. cbv zeta.
  match goal with |- option_map _ ?ds = _ -> _ => destruct ds as [vch|] end;
    cbn [option_map]; [|discriminate].
  intros H. inversion H. exists vch. reflexivity.
Qed.

(** X1. An object whose tag is none of the three known ones gets a script
    that is the bare header, and the decoder finds no object behind it. *)
Theorem GetScript_unknown_op (this : SidechainObj) :
  ~ known_op (sidechainop this) ->
  GetScript this = Some script_header /\
  ParseSidechainObj (strip_header script_header) = Ok None.
Proof.
  intros Hn. split; [|reflexivity].
  unfold GetScript. cbv zeta.
  destruct (Byte.eqb (sidechainop this) DB_SIDECHAIN_WT_OP) eqn:Ew.
  { exfalso. apply Hn. left. apply byte_eqb_true. exact Ew. }
  destruct (Byte.eqb (sidechainop this) DB_SIDECHAIN_WTPRIME_OP) eqn:Ep.
  { exfalso. apply Hn. right. left. apply byte_eqb_true. exact Ep. }
  destruct (Byte.eqb (sidechainop this) DB_SIDECHAIN_DEPOSIT_OP) eqn:Ed.
  { exfalso. apply Hn. right. right. apply byte_eqb_true. exact Ed. }
  reflexivity.
Qed.

(** X2. Whatever the object, a script [GetScript] returns is at least five
    bytes long and its first five bytes are the header. *)
Theorem GetScript_begins_with_header (this : SidechainObj) (script : list byte) :
  GetScript this = Some script ->
  firstn 5 script = script_header /\ (5 <= length script)%nat.
Proof.
  intros H. apply GetScript_inv in H as [vch ->]. split.
  - reflexivity.
  - rewrite length_app. cbn [script_header length]. lia.
Qed.

(** X3. When the marker byte is not itself one of the tags, decoding a
    script without stripping its header finds no object. *)
Theorem ParseSidechainObj_unstripped_script (this : SidechainObj) (script : list byte) :
  ~ known_op OP_RETURN -> GetScript this = Some script ->
  ParseSidechainObj script = Ok None.
Proof.
  intros Hn H. apply GetScript_inv in H as [vch ->].
  unfold script_header. cbn [app]. unfold ParseSidechainObj. cbv zeta.
  destruct (Byte.eqb OP_RETURN DB_SIDECHAIN_WT_OP) eqn:Ew.
  { exfalso. apply Hn. left. apply byte_eqb_true. exact Ew. }
  destruct (Byte.eqb OP_RETURN DB_SIDECHAIN_WTPRIME_OP) eqn:Ep.
  { exfalso. apply Hn. right. left. apply byte_eqb_true. exact Ep. }
  destruct (Byte.eqb OP_RETURN DB_SIDECHAIN_DEPOSIT_OP) eqn:Ed.
  { exfalso. apply Hn. right. right. apply byte_eqb_true. exact Ed. }
  reflexivity.
Qed.


(** X5. The identity hash of a valid object is the hash of the bytes that
    follow the header in its script, tag byte included. *)
Theorem GetHash_of_script (x : SidechainObj) :
  ops_distinct -> valid x ->
  exists script,
    GetScript x = Some script /\
    GetHash x = Some (SerializeHash (strip_header script)).
Proof.
  intros Hd Hx. exists (script_header ++ Serialize x).
  split; [apply GetScript_valid; assumption|].
  rewrite strip_header_script.
  destruct Hd as (Hwp & Hwd & Hpd).
  destruct x as [op|wt|wtprime|deposit]; cbn [valid] in Hx; unfold GetHash; cbv zeta;
    cbn [sidechainop as_WT as_WTPrime as_Deposit Serialize].
  - contradiction.
  - destruct Hx as [-> _]. rewrite byte_eqb_refl. reflexivity.
  - destruct Hx as [-> _].
    rewrite (byte_eqb_neq _ _ (not_eq_sym Hwp)), byte_eqb_refl. reflexivity.
  - destruct Hx as [-> _].
    rewrite (byte_eqb_neq _ _ (not_eq_sym Hwd)), (byte_eqb_neq _ _ (not_eq_sym Hpd)),
      byte_eqb_refl.
    reflexivity.
Qed.

(** X6. The kind of the object the decoder returns is the one the first
    byte selects, the tests running in the order withdrawal, bundle,
    deposit; a bare base object is never returned. *)
Theorem ParseSidechainObj_kind (vch0 : byte) (rest : list byte) (obj : SidechainObj) :
  ParseSidechainObj (vch0 :: rest) = Ok (Some obj) -> kind_selected_by vch0 obj.
Proof.
  unfold ParseSidechainObj. cbv zeta.
  destruct (Byte.eqb vch0 DB_SIDECHAIN_WT_OP) eqn:Ew.
  { destruct (Unserialize_WT (vch0 :: rest)) as [[o r]|]; [|discriminate].
    intros H. inversion H. cbn [kind_selected_by]. apply byte_eqb_true. exact Ew. }
  assert (Hw : vch0 <> DB_SIDECHAIN_WT_OP).
  { intros ->. rewrite byte_eqb_refl in Ew. discriminate. }
  destruct (Byte.eqb vch0 DB_SIDECHAIN_WTPRIME_OP) eqn:Ep.
  { destruct (Unserialize_WTPrime (vch0 :: rest)) as [[o r]|]; [|discriminate].
    intros H. inversion H. cbn [kind_selected_by].
    split; [exact Hw|]. apply byte_eqb_true. exact Ep. }
  assert (Hp : vch0 <> DB_SIDECHAIN_WTPRIME_OP).
  { intros ->. rewrite byte_eqb_refl in Ep. discriminate. }
  destruct (Byte.eqb vch0 DB_SIDECHAIN_DEPOSIT_OP) eqn:Ed.
  { destruct (Unserialize_Deposit (vch0 :: rest)) as [[o r]|]; [|discriminate].
    intros H. inversion H. cbn [kind_selected_by].
    split; [exact Hw|]. split; [exact Hp|]. apply byte_eqb_true. exact Ed. }
  discriminate.
Qed.


(** X8. A buffer the decoder accepts stays accepted, with the same object,
    when bytes are appended to it. *)
Theorem ParseSidechainObj_extend (vch more : list byte) (obj : SidechainObj) :
  ops_distinct -> tx_codec_reads_back -> tx_codec_canonical ->
  ParseSidechainObj vch = Ok (Some obj) ->
  ParseSidechainObj (vch ++ more) = Ok (Some obj).
Proof.
  intros Hd Hback Hcan H.
  apply (ParseSidechainObj_complete Hcan) in H as (Hobj & Hrec & trailing & ->).
  rewrite <- app_assoc.
  pose proof (ParseSidechainObj_Serialize obj (trailing ++ more) Hd Hobj
                (fun _ => Hback)) as P.
  rewrite Hrec in P. exact P.
Qed.

(** X9. The serialization of a valid object cut short anywhere before its
    end makes the decoder fail hard, except when nothing is left of it: the
    empty buffer is absence. *)
Theorem ParseSidechainObj_truncated (x : SidechainObj) (vch more : list byte) :
  ops_distinct -> tx_codec_reads_back -> tx_codec_canonical ->
  valid x -> Serialize x = vch ++ more -> more <> [] ->
  ParseSidechainObj vch = match vch with [] => Ok None | _ :: _ => Failure end.
Proof.
  intros Hd Hback Hcan Hx Hcut Hmore.
  destruct vch as [|vch0 rest]; [reflexivity|].
  apply ParseSidechainObj_malformed; [exact Hcan| |].
  - destruct (Serialize_tag x Hx) as [fields Hs]. rewrite Hs in Hcut.
    cbn [app] in Hcut. inversion Hcut. apply valid_known_op. exact Hx.
  - exact (truncated_is_malformed Hback x (vch0 :: rest) more Hd Hx Hcut Hmore).
Qed.

End Scripts.

Section Selecting.
Context {consts : Constants} {node : Node} {statuses : StatusConstants}.

Lemma unspent_pred_false (wt : SidechainWT) :
  negb (Byte.eqb (wt_status wt) WT_UNSPENT) = false <-> wt_status wt = WT_UNSPENT.
Proof.
  rewrite negb_false_iff. split.
  - apply byte_eqb_true.
  - intros ->. apply byte_eqb_refl.
Qed.

Lemma SelectUnspentWT_In (vWT : list SidechainWT) wt :
  In wt (SelectUnspentWT vWT) <-> In wt vWT /\ wt_status wt = WT_UNSPENT.
Proof.
  unfold SelectUnspentWT. split.
  - intros Hin. split.
    + clear statuses. induction vWT as [|x l IH]; cbn [erase_remove_if] in Hin; [contradiction|].
      destruct (negb (Byte.eqb (wt_status x) WT_UNSPENT)).
      * right. apply IH. exact Hin.
      * destruct Hin as [->|Hin]; [left; reflexivity|right; apply IH; exact Hin].
    + pose proof (erase_remove_if_Forall
        (fun wt => negb (Byte.eqb (wt_status wt) WT_UNSPENT)) vWT) as Hall.
      rewrite Forall_forall in Hall. apply unspent_pred_false. exact (Hall wt Hin).
  - intros [Hin Hst]. apply erase_remove_if_In; [exact Hin|].
    apply unspent_pred_false. exact Hst.
Qed.

(** X10. The first request after [SortWTByFee] offers the highest fee of
    all requests of the input. *)
Theorem SortWTByFee_head_highest (vWT : list SidechainWT) top rest wt :
  SortWTByFee vWT = top :: rest -> In wt vWT -> mainchainFee top >= mainchainFee wt.
Proof.
  apply (std_sort_head_greatest mainchainFee CompareWTMainchainFee).
  intros a b. reflexivity.
Qed.

(** X11. The first bundle after [SortWTPrimeByHeight] is a most recent one:
    no bundle of the input has a greater height. *)
Theorem SortWTPrimeByHeight_head_latest (vWTPrime : list SidechainWTPrime) top rest wtprime :
  SortWTPrimeByHeight vWTPrime = top :: rest -> In wtprime vWTPrime ->
  nHeight top >= nHeight wtprime.
Proof.
  apply (std_sort_head_greatest nHeight CompareWTPrimeHeight).
  intros a b. reflexivity.
Qed.

(** X12. The sequence of fees after [SortWTByFee] depends on the requests
    only, not on the order in which they are handed in. *)
Theorem SortWTByFee_fees_order_independent (vWT vWT' : list SidechainWT) :
  Permutation vWT vWT' ->
  map mainchainFee (SortWTByFee vWT) = map mainchainFee (SortWTByFee vWT').
Proof.
  apply (std_sort_keys_invariant mainchainFee CompareWTMainchainFee).
  intros a b. reflexivity.
Qed.

(** X13. The sequence of heights after [SortWTPrimeByHeight] depends on the
    bundles only, not on the order in which they are handed in. *)
Theorem SortWTPrimeByHeight_heights_order_independent
    (vWTPrime vWTPrime' : list SidechainWTPrime) :
  Permutation vWTPrime vWTPrime' ->
  map nHeight (SortWTPrimeByHeight vWTPrime) = map nHeight (SortWTPrimeByHeight vWTPrime').
Proof.
  apply (std_sort_keys_invariant nHeight CompareWTPrimeHeight).
  intros a b. reflexivity.
Qed.

(** X14. [SelectUnspentWT] applied twice does what it does applied once. *)
Theorem SelectUnspentWT_idempotent (vWT : list SidechainWT) :
  SelectUnspentWT (SelectUnspentWT vWT) = SelectUnspentWT vWT.
Proof.
  unfold SelectUnspentWT. apply erase_remove_if_fixpoint. apply erase_remove_if_Forall.
Qed.

(** X15. [SelectUnspentWT] leaves a collection as it is exactly when every
    request in it is Unspent. *)
Theorem SelectUnspentWT_unchanged_iff (vWT : list SidechainWT) :
  SelectUnspentWT vWT = vWT <-> Forall (fun wt => wt_status wt = WT_UNSPENT) vWT.
Proof.
  split.
  - intros H. rewrite Forall_forall. intros wt Hin.
    rewrite <- H in Hin. apply SelectUnspentWT_In in Hin. apply Hin.
  - intros H. unfold SelectUnspentWT. apply erase_remove_if_fixpoint.
    eapply Forall_impl; [|exact H]. cbv beta. intros wt Hst.
    apply unspent_pred_false. exact Hst.
Qed.

(** X16. Filtering two collections one after the other and joining the
    results is filtering the joined collection. *)
Theorem SelectUnspentWT_app (vWT1 vWT2 : list SidechainWT) :
  SelectUnspentWT (vWT1 ++ vWT2) = SelectUnspentWT vWT1 ++ SelectUnspentWT vWT2.
Proof. unfold SelectUnspentWT. apply erase_remove_if_app. Qed.

(** X17. Sorting by fee and then filtering gives the Unspent requests of
    the input, highest fee first, and the fees come in the same sequence as
    when filtering first and sorting second. *)
Theorem SelectUnspentWT_after_SortWTByFee (vWT : list SidechainWT) :
  Sorted (descending mainchainFee) (SelectUnspentWT (SortWTByFee vWT)) /\
  Permutation (SelectUnspentWT (SortWTByFee vWT)) (SelectUnspentWT vWT) /\
  map mainchainFee (SelectUnspentWT (SortWTByFee vWT)) =
    map mainchainFee (SortWTByFee (SelectUnspentWT vWT)).
Proof.
  assert (Hkey : forall a b, CompareWTMainchainFee a b = (mainchainFee a >? mainchainFee b))
    by (intros a b; reflexivity).
  assert (Hss : StronglySorted (descending mainchainFee) (SelectUnspentWT (SortWTByFee vWT))).
  { unfold SelectUnspentWT. apply erase_remove_if_sorted.
    apply (std_sort_strongly_sorted mainchainFee CompareWTMainchainFee Hkey). }
  assert (Hperm : Permutation (SelectUnspentWT (SortWTByFee vWT)) (SelectUnspentWT vWT)).
  { unfold SelectUnspentWT. apply erase_remove_if_perm.
    apply Permutation_sym. apply std_sort_perm. }
  split; [apply StronglySorted_Sorted; exact Hss|]. split; [exact Hperm|].
  apply ordered_keys_agree.
  - exact Hss.
  - apply (std_sort_strongly_sorted mainchainFee CompareWTMainchainFee Hkey).
  - eapply perm_trans; [exact Hperm|]. apply std_sort_perm.
Qed.

(** X18. [SidechainWT::GetStatusStr] answers one of four strings, "Unspent"
    exactly for the status [WT_UNSPENT] and "Unknown" exactly for a status
    that is none of the three known ones. *)
Theorem SidechainWT_GetStatusStr_cases (this : SidechainWT) :
  In (SidechainWT_GetStatusStr this)
    ["Unspent"; "Pending - in WT^"; "Spent"; "Unknown"]%string /\
  (SidechainWT_GetStatusStr this = "Unspent"%string <-> wt_status this = WT_UNSPENT) /\
  (SidechainWT_GetStatusStr this = "Unknown"%string <->
   wt_status this <> WT_UNSPENT /\ wt_status this <> WT_IN_WTPRIME /\
   wt_status this <> WT_SPENT).
Proof.
  unfold SidechainWT_GetStatusStr.
  destruct (Byte.eqb (wt_status this) WT_UNSPENT) eqn:Eu.
  { apply byte_eqb_true in Eu. split; [left; reflexivity|]. split.
    - split; [intros _; exact Eu|reflexivity].
    - split; [discriminate|]. intros [Hn _]. contradiction. }
  assert (Hu : wt_status this <> WT_UNSPENT).
  { intros E. rewrite E, byte_eqb_refl in Eu. discriminate. }
  destruct (Byte.eqb (wt_status this) WT_IN_WTPRIME) eqn:Ep.
  { apply byte_eqb_true in Ep. split; [right; left; reflexivity|]. split.
    - split; [discriminate|contradiction].
    - split; [discriminate|]. intros (_ & Hn & _). contradiction. }
  assert (Hp : wt_status this <> WT_IN_WTPRIME).
  { intros E. rewrite E, byte_eqb_refl in Ep. discriminate. }
  destruct (Byte.eqb (wt_status this) WT_SPENT) eqn:Es.
  { apply byte_eqb_true in Es. split; [right; right; left; reflexivity|]. split.
    - split; [discriminate|contradiction].
    - split; [discriminate|]. intros (_ & _ & Hn). contradiction. }
  assert (Hs : wt_status this <> WT_SPENT).
  { intros E. rewrite E, byte_eqb_refl in Es. discriminate. }
  split; [right; right; right; left; reflexivity|]. split.
  - split; [discriminate|contradiction].
  - split; [intros _; auto|reflexivity].
Qed.

(** X19. [SidechainWTPrime::GetStatusStr] answers one of four strings,
    "Created" exactly for the status [WTPRIME_CREATED] and "Unknown" exactly
    for a status that is none of the three known ones. *)
Theorem SidechainWTPrime_GetStatusStr_cases (this : SidechainWTPrime) :
  In (SidechainWTPrime_GetStatusStr this)
    ["Created"; "Failed"; "Spent"; "Unknown"]%string /\
  (SidechainWTPrime_GetStatusStr this = "Created"%string <->
   wtprime_status this = WTPRIME_CREATED) /\
  (SidechainWTPrime_GetStatusStr this = "Unknown"%string <->
   wtprime_status this <> WTPRIME_CREATED /\ wtprime_status this <> WTPRIME_FAILED /\
   wtprime_status this <> WTPRIME_SPENT).
Proof.
  unfold SidechainWTPrime_GetStatusStr.
  destruct (Byte.eqb (wtprime_status this) WTPRIME_CREATED) eqn:Ec.
  { apply byte_eqb_true in Ec. split; [left; reflexivity|]. split.
    - split; [intros _; exact Ec|reflexivity].
    - split; [discriminate|]. intros [Hn _]. contradiction. }
  assert (Hc : wtprime_status this <> WTPRIME_CREATED).
  { intros E. rewrite E, byte_eqb_refl in Ec. discriminate. }
  destruct (Byte.eqb (wtprime_status this) WTPRIME_FAILED) eqn:Ef.
  { apply byte_eqb_true in Ef. split; [right; left; reflexivity|]. split.
    - split; [discriminate|contradiction].
    - split; [discriminate|]. intros (_ & Hn & _). contradiction. }
  assert (Hf : wtprime_status this <> WTPRIME_FAILED).
  { intros E. rewrite E, byte_eqb_refl in Ef. discriminate. }
  destruct (Byte.eqb (wtprime_status this) WTPRIME_SPENT) eqn:Es.
  { apply byte_eqb_true in Es. split; [right; right; left; reflexivity|]. split.
    - split; [discriminate|contradiction].
    - split; [discriminate|]. intros (_ & _ & Hn). contradiction. }
  assert (Hs : wtprime_status this <> WTPRIME_SPENT).
  { intros E. rewrite E, byte_eqb_refl in Es. discriminate. }
  split; [right; right; right; left; reflexivity|]. split.
  - split; [discriminate|contradiction].
  - split; [intros _; auto|reflexivity].
Qed.

(** X20. The requests [SelectUnspentWT] retains are the requests of the
    input that [SidechainWT::GetStatusStr] renders as "Unspent". *)
Theorem SelectUnspentWT_renders_Unspent (vWT : list SidechainWT) (wt : SidechainWT) :
  In wt (SelectUnspentWT vWT) <->
  In wt vWT /\ SidechainWT_GetStatusStr wt = "Unspent"%string.
Proof.
  rewrite SelectUnspentWT_In.
  assert (H : SidechainWT_GetStatusStr wt = "Unspent"%string <-> wt_status wt = WT_UNSPENT).
  { unfold SidechainWT_GetStatusStr.
    destruct (Byte.eqb (wt_status wt) WT_UNSPENT) eqn:Eu.
    - apply byte_eqb_true in Eu. split; [intros _; exact Eu|reflexivity].
    - split.
      + destruct (Byte.eqb (wt_status wt) WT_IN_WTPRIME); [discriminate|].
        destruct (Byte.eqb (wt_status wt) WT_SPENT); discriminate.
      + intros E. rewrite E, byte_eqb_refl in Eu. discriminate. }
  rewrite H. reflexivity.
Qed.

End Selecting.

(* ================================================================= *)
(** ** The further properties on the sample instance *)

Lemma sample_marker_no_tag : ~ @known_op sample_constants (@OP_RETURN sample_constants).
Proof. unfold known_op. cbn. intros [H|[H|H]]; discriminate. Qed.

Lemma sample_wt_parsed :
  @ParseSidechainObj sample_constants sample_node
    (@Serialize sample_node (ObjWT (sample_wt 1000000))) =
  Ok (Some (ObjWT (sample_wt 1000000))).
Proof.
  rewrite <- (app_nil_r (@Serialize sample_node (ObjWT (sample_wt 1000000)))).
  apply (@ParseSidechainObj_Serialize sample_constants sample_node
           (ObjWT (sample_wt 1000000))).
  - exact sample_ops_distinct.
  - exact (sample_wt_valid 1000000 sample_fee_int64).
  - intros [].
Qed.

Lemma GetScript_unknown_op_witness :
  @GetScript sample_constants sample_node (ObjBase Byte.x00) =
    Some (@script_header sample_constants) /\
  @ParseSidechainObj sample_constants sample_node
    (strip_header (@script_header sample_constants)) = Ok None.
Proof.
  apply (@GetScript_unknown_op sample_constants sample_node (ObjBase Byte.x00)).
  exact sample_unknown_op.
Defined.

Lemma GetScript_begins_with_header_witness :
  firstn 5 (@script_header sample_constants ++
            @Serialize sample_node (ObjWT (sample_wt 1000000))) =
    @script_header sample_constants /\
  (5 <= length (@script_header sample_constants ++
                @Serialize sample_node (ObjWT (sample_wt 1000000))))%nat.
Proof.
  apply (@GetScript_begins_with_header sample_constants sample_node
           (ObjWT (sample_wt 1000000))).
  reflexivity.
Defined.

Lemma ParseSidechainObj_unstripped_script_witness :
  @ParseSidechainObj sample_constants sample_node
    (@script_header sample_constants ++ @Serialize sample_node (ObjDeposit sample_deposit)) =
  Ok None.
Proof.
  apply (@ParseSidechainObj_unstripped_script sample_constants sample_node
           (ObjDeposit sample_deposit)).
  - exact sample_marker_no_tag.
  - reflexivity.
Defined.


Lemma GetHash_of_script_witness :
  exists script,
    @GetScript sample_constants sample_node (ObjWTPrime (sample_wtprime 150)) = Some script /\
    @GetHash sample_constants sample_node (ObjWTPrime (sample_wtprime 150)) =
      Some (@SerializeHash sample_node (strip_header script)).
Proof.
  apply (@GetHash_of_script sample_constants sample_node).
  - exact sample_ops_distinct.
  - exact (sample_wtprime_valid 150 sample_height_int32).
Defined.

Lemma ParseSidechainObj_kind_witness :
  @kind_selected_by sample_constants sample_node Byte.x57 (ObjWT (sample_wt 1000000)).
Proof.
  apply (@ParseSidechainObj_kind sample_constants sample_node Byte.x57
           (tl (@Serialize sample_node (ObjWT (sample_wt 1000000))))).
  exact sample_wt_parsed.
Defined.


Lemma ParseSidechainObj_extend_witness :
  @ParseSidechainObj sample_constants sample_node
    (@Serialize sample_node (ObjWT (sample_wt 1000000)) ++ [Byte.x57; Byte.x00]) =
  Ok (Some (ObjWT (sample_wt 1000000))).
Proof.
  apply (@ParseSidechainObj_extend sample_constants sample_node).
  - exact sample_ops_distinct.
  - exact sample_tx_codec_reads_back.
  - exact sample_tx_codec_canonical.
  - exact sample_wt_parsed.
Defined.

Lemma ParseSidechainObj_truncated_witness :
  @ParseSidechainObj sample_constants sample_node
    (firstn 30 (@Serialize sample_node (ObjWT (sample_wt 1000000)))) = Failure.
Proof.
  apply (@ParseSidechainObj_truncated sample_constants sample_node
           (ObjWT (sample_wt 1000000))
           (firstn 30 (@Serialize sample_node (ObjWT (sample_wt 1000000))))
           (skipn 30 (@Serialize sample_node (ObjWT (sample_wt 1000000))))).
  - exact sample_ops_distinct.
  - exact sample_tx_codec_reads_back.
  - exact sample_tx_codec_canonical.
  - exact (sample_wt_valid 1000000 sample_fee_int64).
  - symmetry. apply firstn_skipn.
  - vm_compute. discriminate.
Defined.

Lemma SortWTByFee_head_highest_witness :
  mainchainFee (sample_wt 900000) >= mainchainFee (sample_wt 100000).
Proof.
  apply (@SortWTByFee_head_highest
           [sample_wt 500000; sample_wt 900000; sample_wt 100000]
           (sample_wt 900000) [sample_wt 500000; sample_wt 100000]).
  - reflexivity.
  - right. right. left. reflexivity.
Defined.

Lemma SortWTPrimeByHeight_head_latest_witness :
  nHeight (sample_wtprime 200) >= nHeight (sample_wtprime 150).
Proof.
  apply (@SortWTPrimeByHeight_head_latest sample_node
           [sample_wtprime 150; sample_wtprime 200]
           (sample_wtprime 200) [sample_wtprime 150]).
  - reflexivity.
  - left. reflexivity.
Defined.

Lemma SortWTByFee_fees_order_independent_witness :
  map mainchainFee (SortWTByFee [sample_wt 500000; sample_wt 900000]) =
  map mainchainFee (SortWTByFee [sample_wt 900000; sample_wt 500000]).
Proof.
  apply SortWTByFee_fees_order_independent. apply perm_swap.
Defined.

Lemma SortWTPrimeByHeight_heights_order_independent_witness :
  map nHeight (@SortWTPrimeByHeight sample_node [sample_wtprime 150; sample_wtprime 200]) =
  map nHeight (@SortWTPrimeByHeight sample_node [sample_wtprime 200; sample_wtprime 150]).
Proof.
  apply (@SortWTPrimeByHeight_heights_order_independent sample_node). apply perm_swap.
Defined.

Lemma SelectUnspentWT_unchanged_iff_witness :
  @SelectUnspentWT sample_constants [sample_wt 500000; sample_wt 900000] =
  [sample_wt 500000; sample_wt 900000].
Proof.
  apply (proj2 (@SelectUnspentWT_unchanged_iff sample_constants
                  [sample_wt 500000; sample_wt 900000])).
  constructor; [reflexivity|]. constructor; [reflexivity|]. constructor.
Defined.

Lemma SidechainWT_GetStatusStr_cases_witness :
  @SidechainWT_GetStatusStr sample_constants sample_status_constants
    (sample_wt_status Byte.x7a 1000000) = "Unknown"%string.
Proof.
  apply (proj2 (proj2 (proj2 (@SidechainWT_GetStatusStr_cases sample_constants
                                sample_status_constants (sample_wt_status Byte.x7a 1000000))))).
  cbn. repeat split; discriminate.
Defined.

Lemma SidechainWTPrime_GetStatusStr_cases_witness :
  @wtprime_status sample_node (sample_wtprime 150) = @WTPRIME_CREATED sample_status_constants.
Proof.
  apply (proj1 (proj1 (proj2 (@SidechainWTPrime_GetStatusStr_cases sample_node
                                sample_status_constants (sample_wtprime 150))))).
  reflexivity.
Defined.

Lemma SelectUnspentWT_renders_Unspent_witness :
  In (sample_wt 900000)
    (@SelectUnspentWT sample_constants
       [sample_wt_status Byte.x53 500000; sample_wt 900000]).
Proof.
  apply (proj2 (@SelectUnspentWT_renders_Unspent sample_constants sample_status_constants
                  [sample_wt_status Byte.x53 500000; sample_wt 900000] (sample_wt 900000))).
  split; [right; left; reflexivity|reflexivity].
Defined.
